(** * whisper_finetune/preprocess.py: split rebalancing, per-example
      preprocessing and batch collation.

    A shallow embedding of the three entry points of [preprocess.py]:
    [skrink_splits], [Preprocessor.__call__] and
    [DataCollatorSpeechSeq2SeqWithPadding.__call__].  Python exceptions are
    values of [error]; Python dicts that are only looked up or assigned are
    finite maps; the [split_sizes] dict, whose iteration order drives the
    loop, is the list of its items. *)

From stdpp Require Import base option list sorting gmap strings fin_maps.
From Stdlib Require Import ZArith Lia.

#[local] Set Warnings "-register-all,-clear-no-such-hyp".
Local Open Scope nat_scope.

(** ** Exceptions *)

Inductive error : Type :=
| KeyError (key : string)
| ValueError
| IndexError
| TypeError
| OverflowError.

Inductive result (A : Type) : Type :=
| Ok (a : A)
| Raise (e : error).
Arguments Ok {A} a.
Arguments Raise {A} e.

#[global] Instance result_ret : MRet result := λ A a, Ok a.
#[global] Instance result_bind : MBind result := λ A B f m,
  match m with
  | Ok a => f a
  | Raise e => Raise e
  end.

#[global] Instance result_fmap : FMap result := λ A B f m,
  match m with
  | Ok a => Ok (f a)
  | Raise e => Raise e
  end.

(** [for x in xs: acc = f(acc, x)], stopping at the first exception. *)
Fixpoint foldlM {A B : Type} (f : A → B → result A) (acc : A) (xs : list B)
  : result A :=
  match xs with
  | [] => Ok acc
  | x :: xs' => acc' ← f acc x; foldlM f acc' xs'
  end.

(** [[f(x) for x in xs]], stopping at the first exception. *)
Fixpoint mapM_result {A B : Type} (f : A → result B) (xs : list A)
  : result (list B) :=
  match xs with
  | [] => Ok []
  | x :: xs' => y ← f x; ys ← mapM_result f xs'; Ok (y :: ys)
  end.

(** [d[key]] on a Python dict. *)
Definition getitem {V : Type} (d : gmap string V) (key : string) : result V :=
  match d !! key with
  | Some v => Ok v
  | None => Raise (KeyError key)
  end.

(** ** numpy: the seeded generator, [arange], [setdiff1d] *)

(** [np.random.Generator]: the state behind [default_rng(seed)] and what
    [rng.choice(a, size, replace=False)] draws from a population [a] for a
    valid [size]. *)
Record Generator : Type := {
  rng_state : Type;
  seed_state : Z → rng_state;
  sample : rng_state → nat → nat → list nat * rng_state;
}.

(** A sample without replacement of [k] out of [arange(n)], [k <= n]:
    [k] pairwise different indices below [n], in the order drawn. *)
Class GeneratorLaws (G : Generator) : Prop := {
  sample_length : ∀ st n k, k ≤ n → length (sample G st n k).1 = k;
  sample_NoDup : ∀ st n k, k ≤ n → NoDup (sample G st n k).1;
  sample_bound : ∀ st n k, k ≤ n → Forall (λ i, i < n) (sample G st n k).1;
}.

(** [np.random.default_rng(seed)]: the seed sequence rejects a negative
    integer. *)
Definition default_rng (G : Generator) (seed : Z) : result (rng_state G) :=
  if decide (seed < 0)%Z then Raise ValueError else Ok (seed_state G seed).

(** [rng.choice(a, size, replace=False)] for an integer population [a]:
    a size below the 64-bit integers does not convert, and a sample larger
    than the population and a negative size are rejected. *)
Definition choice (G : Generator) (rng : rng_state G) (a : nat) (size : Z)
  : result (list nat * rng_state G) :=
  if decide (size < - 2 ^ 63)%Z then Raise OverflowError
  else if decide (Z.of_nat a < size)%Z then Raise ValueError
  else if decide (size < 0)%Z then Raise ValueError
  else Ok (sample G rng a (Z.to_nat size)).

Definition arange (n : nat) : list nat := seq 0 n.

(** [np.unique] on a one-dimensional array: sorted, without repetitions. *)
Fixpoint insert_unique (x : nat) (l : list nat) : list nat :=
  match l with
  | [] => [x]
  | y :: l' =>
      if decide (x < y) then x :: l
      else if decide (x = y) then l
      else y :: insert_unique x l'
  end.

Definition unique (l : list nat) : list nat := foldr insert_unique [] l.

(** [np.setdiff1d(ar1, ar2)]: the sorted unique values of [ar1] that are not
    in [ar2]. *)
Definition setdiff1d (ar1 ar2 : list nat) : list nat :=
  filter (λ i, i ∉ ar2) (unique ar1).

(** ** datasets: [Dataset.select], [concatenate_datasets] *)

Section Rebalancer.
Context {Ex : Type}.

(** A split: the ordered rows of a [datasets.Dataset]. *)
Local Abbreviation Dataset := (list Ex).

(** [split.select(indices)]: the rows at [indices], in that order. *)
Definition select (d : Dataset) (indices : list nat) : result Dataset :=
  mapM_result (λ i, match d !! i with
                    | Some x => Ok x
                    | None => Raise IndexError
                    end) indices.

(** [datasets.concatenate_datasets(dsets)]. *)
Definition concatenate_datasets (dsets : list Dataset) : Dataset :=
  concat dsets.

(** ** [skrink_splits] *)

Context (G : Generator).

(** The variables the loop of [skrink_splits] updates. *)
Record loop_state : Type := LoopState {
  rng : rng_state G;
  dataset : gmap string Dataset;
  moved : list Dataset;
}.

(** One iteration of [for split, size in split_sizes.items()]. *)
Definition shrink_body (ds : gmap string Dataset) (st : loop_state)
    (item : string * Z) : result loop_state :=
  let '(split, size) := item in
  d ← getitem ds split;
  if decide (size < Z.of_nat (length d))%Z then
    '(idx_remaining, rng') ← choice G (rng st) (length d) size;
    let idx_move := setdiff1d (arange (length d)) idx_remaining in
    kept ← select d idx_remaining;
    let dataset' := <[split := kept]> (dataset st) in
    mv ← select d idx_move;
    Ok (LoopState rng' dataset' (moved st ++ [mv]))
  else Ok st.

Definition skrink_splits (ds : gmap string Dataset)
    (split_sizes : list (string * Z)) (grow_split : string) (seed : Z)
  : result (gmap string Dataset) :=
  rng0 ← default_rng G seed;
  st ← foldlM (shrink_body ds) (LoopState rng0 ∅ []) split_sizes;
  g ← getitem ds grow_split;
  Ok (<[grow_split := concatenate_datasets (g :: moved st)]> (dataset st)).

End Rebalancer.


(** ** Records: the dicts the preprocessor and the collator work on *)

Section Pipeline.
Context {Array Feat Bundle : Type}.

(** The values found in an example: the transcript, the sampling rate, the
    audio samples, a log-Mel feature vector, a token-id sequence, a nested
    dict (the audio field). *)
Inductive value : Type :=
| VStr (s : string)
| VInt (z : Z)
| VArray (a : Array)
| VFeat (f : Feat)
| VIds (ids : list Z)
| VDict (d : gmap string value).

Definition as_dict (v : value) : result (gmap string value) :=
  match v with VDict d => Ok d | _ => Raise TypeError end.
Definition as_array (v : value) : result Array :=
  match v with VArray a => Ok a | _ => Raise TypeError end.
Definition as_int (v : value) : result Z :=
  match v with VInt z => Ok z | _ => Raise TypeError end.
Definition as_str (v : value) : result string :=
  match v with VStr s => Ok s | _ => Raise TypeError end.
Definition as_feat (v : value) : result Feat :=
  match v with VFeat f => Ok f | _ => Raise TypeError end.
Definition as_ids (v : value) : result (list Z) :=
  match v with VIds ids => Ok ids | _ => Raise TypeError end.

(** [WhisperFeatureExtractor]: [fe_call a sr] is
    [feature_extractor(a, sampling_rate=sr).input_features], [fe_pad] the
    tensor bundle [feature_extractor.pad] builds from a non-empty batch. *)
Record WhisperFeatureExtractor : Type := {
  fe_call : Array → Z → list Feat;
  fe_pad : list Feat → Bundle;
}.

(** [WhisperTokenizer]: [tok_call s] is [tokenizer(s).input_ids]. *)
Record WhisperTokenizer : Type := {
  tok_call : string → list Z;
  bos_token_id : Z;
  pad_token_id : Z;
}.

(** Token ids are indices into the vocabulary. *)
Class TokenizerLaws (tok : WhisperTokenizer) : Prop := {
  bos_token_id_nonneg : (0 ≤ bos_token_id tok)%Z;
}.

(** ** [Preprocessor.__call__] *)

(** The store of dict objects: [batch] is a reference into it, and item
    assignment updates the object in place. *)
Definition heap : Type := gmap nat (gmap string value).

(** Computations that read and write the store and may raise; the store
    survives an exception. *)
Definition M (A : Type) : Type := heap → result A * heap.

Definition retM {A : Type} (a : A) : M A := λ h, (Ok a, h).
Definition bindM {A B : Type} (m : M A) (k : A → M B) : M B := λ h,
  match m h with
  | (Ok a, h') => k a h'
  | (Raise e, h') => (Raise e, h')
  end.
Definition liftM {A : Type} (r : result A) : M A := λ h, (r, h).

#[local] Instance M_ret : MRet M := @retM.
#[local] Instance M_bind : MBind M := λ A B k m, bindM m k.

(** [obj[key]] through a reference. *)
Definition load (obj : nat) (key : string) : M value := λ h,
  match h !! obj with
  | Some d => (getitem d key, h)
  | None => (Raise TypeError, h)
  end.

(** [obj[key] = v] through a reference. *)
Definition store (obj : nat) (key : string) (v : value) : M () := λ h,
  match h !! obj with
  | Some d => (Ok (), <[obj := <[key := v]> d]> h)
  | None => (Raise TypeError, h)
  end.

Record Preprocessor : Type := {
  pp_tokenizer : WhisperTokenizer;
  pp_feature_extractor : WhisperFeatureExtractor;
}.

Definition Preprocessor_call (self : Preprocessor) (batch : nat) : M nat :=
  audio_v ← load batch "audio";
  audio ← liftM (as_dict audio_v);
  arr ← liftM (a ← getitem audio "array"; as_array a);
  sr ← liftM (r ← getitem audio "sampling_rate"; as_int r);
  f ← liftM (match fe_call (pp_feature_extractor self) arr sr !! 0 with
             | Some f => Ok f
             | None => Raise IndexError
             end);
  store batch "input_features" (VFeat f);;
  sentence_v ← load batch "sentence";
  sentence ← liftM (as_str sentence_v);
  store batch "labels" (VIds (tok_call (pp_tokenizer self) sentence));;
  retM batch.

(** ** [DataCollatorSpeechSeq2SeqWithPadding.__call__] *)

Record DataCollatorSpeechSeq2SeqWithPadding : Type := {
  dc_tokenizer : WhisperTokenizer;
  dc_feature_extractor : WhisperFeatureExtractor;
}.

(** The collated batch: the padded feature bundle and the [labels] entry
    added to it. *)
Record Batch : Type := {
  input_features : Bundle;
  labels : list (list Z);
}.

(** [feature_extractor.pad(input_features, return_tensors="pt")]: reads
    the first element of the batch, so an empty batch is an index error. *)
Definition feature_extractor_pad (fe : WhisperFeatureExtractor)
    (vals : list value) : result Bundle :=
  match vals with
  | [] => Raise IndexError
  | _ => fs ← mapM_result as_feat vals; Ok (fe_pad fe fs)
  end.

(** The output of [tokenizer.pad]: [input_ids] and [attention_mask], one
    row per example. *)
Record BatchEncoding : Type := {
  input_ids : list (list Z);
  attention_mask : list (list Z);
}.

(** [tokenizer.pad(label_features, return_tensors="pt")]: every sequence is
    filled on the right with the pad token up to the longest one; the mask
    is 1 on the tokens of the sequence and 0 on the filling. *)
Definition tokenizer_pad (tok : WhisperTokenizer) (vals : list value)
  : result BatchEncoding :=
  seqs ← mapM_result as_ids vals;
  let width := max_list (length <$> seqs) in
  Ok {| input_ids :=
          (λ s, s ++ replicate (width - length s) (pad_token_id tok)) <$> seqs;
        attention_mask :=
          (λ s, replicate (length s) 1%Z ++ replicate (width - length s) 0%Z)
            <$> seqs |}.

(** [t.ne(c)], elementwise. *)
Definition tensor_ne (t : list (list Z)) (c : Z) : list (list bool) :=
  (λ row : list Z, (λ x, bool_decide (x ≠ c)) <$> row) <$> t.

(** [t.masked_fill(mask, v)]: [v] where the mask is true, [t] elsewhere. *)
Definition masked_fill (t : list (list Z)) (mask : list (list bool)) (v : Z)
  : list (list Z) :=
  zip_with (zip_with (λ x (b : bool), if b then v else x)) t mask.

(** [t[:, 0]]: an index error on a tensor without columns. *)
Definition column0 (t : list (list Z)) : result (list Z) :=
  mapM_result (λ row, match row !! 0 with
                      | Some x => Ok x
                      | None => Raise IndexError
                      end) t.

(** [(col == c).all()]. *)
Definition all_eq (col : list Z) (c : Z) : bool :=
  forallb (λ x, bool_decide (x = c)) col.

(** [t[:, 1:]]. *)
Definition drop_column0 (t : list (list Z)) : list (list Z) := drop 1 <$> t.

Definition ignore_index : Z := (-100)%Z.

Definition DataCollator_call (self : DataCollatorSpeechSeq2SeqWithPadding)
    (features : list (gmap string value)) : result Batch :=
  input_features ← mapM_result (λ feature, getitem feature "input_features")
                     features;
  batch ← feature_extractor_pad (dc_feature_extractor self) input_features;
  label_features ← mapM_result (λ feature, getitem feature "labels") features;
  labels_batch ← tokenizer_pad (dc_tokenizer self) label_features;
  let labels := masked_fill (input_ids labels_batch)
                  (tensor_ne (attention_mask labels_batch) 1) ignore_index in
  col ← column0 labels;
  let labels :=
    if all_eq col (bos_token_id (dc_tokenizer self))
    then drop_column0 labels else labels in
  Ok {| input_features := batch; labels := labels |}.

End Pipeline.

(** ** Concrete collaborators, to run the definitions *)

(** A generator whose sample is the [k] highest indices, highest first. *)
Definition descending_rng : Generator := {|
  rng_state := nat;
  seed_state := λ seed, Z.to_nat seed;
  sample := λ st n k, (take k (reverse (seq 0 n)), S st);
|}.

(** A generator whose sample depends on its state: the first [k] indices of
    [arange(n)] rotated by the state; the state is the seed, then counts the
    draws. *)
Definition rotating_rng : Generator := {|
  rng_state := nat;
  seed_state := λ seed, Z.to_nat seed;
  sample := λ st n k, (take k (rotate st (seq 0 n)), S st);
|}.

(** The same generator, as another object: its state is an integer. *)
Definition rotating_rng_Z : Generator := {|
  rng_state := Z;
  seed_state := λ seed, seed;
  sample := λ st n k, (take k (rotate (Z.to_nat st) (seq 0 n)), (st + 1)%Z);
|}.

(** A tokenizer with Whisper's start-of-transcript id 50258 in front of
    every sequence and 50257 as pad token. *)
Definition toy_tokenizer : @WhisperTokenizer := {|
  tok_call := λ s, [50258; Z.of_nat (String.length s); 50257]%Z;
  bos_token_id := 50258%Z;
  pad_token_id := 50257%Z;
|}.

(** A feature extractor on lists of samples: the feature vector is the
    samples, and padding stacks the vectors. *)
Definition toy_feature_extractor
  : @WhisperFeatureExtractor (list Z) (list Z) (list (list Z)) := {|
  fe_call := λ a sr, [a];
  fe_pad := λ fs, fs;
|}.

(** A dataset of numbered examples, with a train and a test split. *)
Definition example_ds : gmap string (list nat) :=
  {[ "train" := [0; 1; 2]; "test" := [10; 11; 12; 13] ]}.

Definition toy_preprocessor : Preprocessor := {|
  pp_tokenizer := toy_tokenizer;
  pp_feature_extractor := toy_feature_extractor;
|}.

Definition toy_collator : DataCollatorSpeechSeq2SeqWithPadding := {|
  dc_tokenizer := toy_tokenizer;
  dc_feature_extractor := toy_feature_extractor;
|}.

(** A raw example, and a store that holds it at address 0. *)
Definition example_record : gmap string (@value (list Z) (list Z)) :=
  {[ "audio" := VDict {[ "array" := VArray [1; 2]%Z;
                         "sampling_rate" := VInt 16000 ]};
     "sentence" := VStr "hi" ]}.

Definition example_heap : @heap (list Z) (list Z) := {[ 0 := example_record ]}.

(** Preprocessed examples with label sequences of different lengths. *)
Definition example_feature (ids : list Z)
  : gmap string (@value (list Z) (list Z)) :=
  {[ "input_features" := VFeat [1%Z]; "labels" := VIds ids ]}.

(** A raw example without transcript, in a store of its own. *)
Definition example_heap_no_sentence : @heap (list Z) (list Z) :=
  {[ 0 := delete "sentence" example_record ]}.

(** ** Vocabulary of the statements *)

Section RebalancerVocabulary.
Context {Ex : Type}.

(** The loop shrinks the split of [item]: the split is in [ds] and larger
    than its target. *)
Definition is_shrunk (ds : gmap string (list Ex)) (item : string * Z) : bool :=
  match ds !! item.1 with
  | Some d => bool_decide (item.2 < Z.of_nat (length d))%Z
  | None => false
  end.

(** [r] holds the rows of [d] at [indices], in the order of [indices]. *)
Definition rows_at (d : list Ex) (indices : list nat) (r : list Ex) : Prop :=
  Forall2 (λ i x, d !! i = Some x) indices r.

(** The number of examples of a dataset dict, all splits together. *)
Definition total_size (m : gmap string (list Ex)) : nat :=
  sum_list (length <$> (map_to_list m).*2).

(** The splits of [ds] whose name is in [names]. *)
Definition restrict (names : gset string) (ds : gmap string (list Ex))
  : gmap string (list Ex) :=
  filter (λ kv, kv.1 ∈ names) ds.

(** What one shrinking iteration did: the split, its rows, the indices drawn
    to remain, the rows kept and the rows moved. *)
Record draw : Type := Draw {
  dr_split : string;
  dr_rows : list Ex;
  dr_idx : list nat;
  dr_kept : list Ex;
  dr_moved : list Ex;
}.

(** [dr] is an iteration on [item]: the split is larger than its target, and
    the indices are a sample of the generator, of the target size, out of
    the rows of the split. *)
Definition drawn (G : Generator) (ds : gmap string (list Ex))
    (item : string * Z) (dr : draw) : Prop :=
  dr_split dr = item.1 ∧
  ds !! item.1 = Some (dr_rows dr) ∧
  (0 ≤ item.2 < Z.of_nat (length (dr_rows dr)))%Z ∧
  (∃ st, dr_idx dr
         = (sample G st (length (dr_rows dr)) (Z.to_nat item.2)).1) ∧
  select (dr_rows dr) (dr_idx dr) = Ok (dr_kept dr) ∧
  select (dr_rows dr)
    (setdiff1d (arange (length (dr_rows dr))) (dr_idx dr)) = Ok (dr_moved dr).

End RebalancerVocabulary.

Arguments draw : clear implicits.

(** The outcome of shrinking the split of [item], said without the code's
    helpers: [idx] is a sample of the generator, of the target size, out of
    the indices of the split; [kept] holds the rows at [idx], in the order of
    the sample; [mv] holds the rows at all the other indices, in ascending
    index order. *)
Definition shrinks {Ex : Type} (G : Generator) (ds : gmap string (list Ex))
    (item : string * Z) (idx : list nat) (kept mv : list Ex) : Prop :=
  ∃ d,
    ds !! item.1 = Some d ∧
    (0 ≤ item.2 < Z.of_nat (length d))%Z ∧
    (∃ st, idx = (sample G st (length d) (Z.to_nat item.2)).1) ∧
    rows_at d idx kept ∧
    (∃ idx_move,
       StronglySorted lt idx_move ∧
       (∀ i, i ∈ idx_move ↔ i < length d ∧ i ∉ idx) ∧
       rows_at d idx_move mv) ∧
    kept ++ mv ≡ₚ d ∧
    Z.of_nat (length kept) = item.2 ∧
    length mv = length d - Z.to_nat item.2.

(** Two generators draw alike from two states: the same samples now, and
    again alike from the states the draw leaves. *)
Definition draw_alike (G1 G2 : Generator)
    (R : rng_state G1 → rng_state G2 → Prop) : Prop :=
  ∀ s1 s2 n k,
    R s1 s2 →
    (sample G1 s1 n k).1 = (sample G2 s2 n k).1 ∧
    R (sample G1 s1 n k).2 (sample G2 s2 n k).2.

(** A token id that fits the 64-bit label tensor. *)
Definition int64 (z : Z) : Prop := (- 2 ^ 63 ≤ z < 2 ^ 63)%Z.

(** The width of the padded label tensor: the longest sequence. *)
Definition batch_width (seqs : list (list Z)) : nat :=
  max_list (length <$> seqs).

(** The label rows after [masked_fill]: every sequence, followed by the
    ignore value up to the width of the batch. *)
Definition padded_labels (seqs : list (list Z)) : list (list Z) :=
  (λ s, s ++ replicate (batch_width seqs - length s) ignore_index) <$> seqs.

(** The sequence [s] begins with the token [c]. *)
Definition begins_with (c : Z) (s : list Z) : Prop := head s = Some c.

(** The batch holds the feature vectors [feats] and the label sequences
    [seqs], example by example. *)
Definition holds {Array Feat : Type}
    (features : list (gmap string (@value Array Feat)))
    (feats : list Feat) (seqs : list (list Z)) : Prop :=
  Forall2 (λ feature f, feature !! "input_features" = Some (VFeat f))
    features feats ∧
  Forall2 (λ feature s, feature !! "labels" = Some (VIds s)) features seqs.

(** * Proofs *)

(** ** The error monad *)

Lemma bind_Ok {A B : Type} (f : A → result B) (a : A) : Ok a ≫= f = f a.
Proof. reflexivity. Qed.

Lemma bind_Raise {A B : Type} (f : A → result B) (e : error) :
  Raise e ≫= f = Raise e.
Proof. reflexivity. Qed.

Lemma bind_Ok_inv {A B : Type} (f : A → result B) (m : result A) (b : B) :
  m ≫= f = Ok b → ∃ a, m = Ok a ∧ f a = Ok b.
Proof. destruct m as [a|e]; [eauto | discriminate]. Qed.

Lemma getitem_Some {V : Type} (d : gmap string V) (key : string) (v : V) :
  d !! key = Some v → getitem d key = Ok v.
Proof. unfold getitem. by intros ->. Qed.

Lemma getitem_None {V : Type} (d : gmap string V) (key : string) :
  d !! key = None → getitem d key = Raise (KeyError key).
Proof. unfold getitem. by intros ->. Qed.

Lemma getitem_Ok_inv {V : Type} (d : gmap string V) (key : string) (v : V) :
  getitem d key = Ok v → d !! key = Some v.
Proof. unfold getitem. destruct (d !! key); naive_solver. Qed.

Lemma foldlM_cons {A B : Type} (f : A → B → result A) (acc : A) (x : B)
    (xs : list B) :
  foldlM f acc (x :: xs) = acc' ← f acc x; foldlM f acc' xs.
Proof. reflexivity. Qed.

Lemma foldlM_app {A B : Type} (f : A → B → result A) (acc : A)
    (xs ys : list B) :
  foldlM f acc (xs ++ ys) = acc' ← foldlM f acc xs; foldlM f acc' ys.
Proof.
  revert acc. induction xs as [|x xs IH]; intros acc; [done|].
  simpl. destruct (f acc x) as [a|e]; simpl; [apply IH | done].
Qed.

Lemma mapM_result_Ok {A B : Type} (f : A → result B) (xs : list A)
    (ys : list B) :
  mapM_result f xs = Ok ys ↔ Forall2 (λ x y, f x = Ok y) xs ys.
Proof.
  revert ys. induction xs as [|x xs IH]; intros ys; simpl.
  - split; [by intros [= <-] | by intros ->%Forall2_nil_inv_l].
  - split.
    + intros (y & Hy & (ys' & Hys & [= <-])%bind_Ok_inv)%bind_Ok_inv.
      constructor; [done | by apply IH].
    + intros (y & ys' & Hy & Hys & ->)%Forall2_cons_inv_l.
      rewrite Hy. simpl. apply IH in Hys. by rewrite Hys.
Qed.

(** ** numpy *)

Lemma unique_seq (a n : nat) : unique (seq a n) = seq a n.
Proof.
  revert a. induction n as [|n IH]; intros a; [done|].
  change (unique (seq a (S n))) with (insert_unique a (unique (seq (S a) n))).
  rewrite IH. destruct n as [|n]; simpl; [done|].
  case_decide; [done | lia].
Qed.

Lemma setdiff1d_arange (n : nat) (idx : list nat) :
  setdiff1d (arange n) idx = filter (λ i, i ∉ idx) (seq 0 n).
Proof. unfold setdiff1d, arange. by rewrite unique_seq. Qed.

Lemma StronglySorted_seq (a n : nat) : StronglySorted lt (seq a n).
Proof.
  revert a. induction n as [|n IH]; intros a; simpl; constructor; [done|].
  apply Forall_forall. intros i Hi%elem_of_seq. lia.
Qed.

Lemma StronglySorted_filter {A : Type} (R : relation A) (P : A → Prop)
    `{!∀ x, Decision (P x)} (l : list A) :
  StronglySorted R l → StronglySorted R (filter P l).
Proof.
  induction 1 as [|x l Hl IH Hx]; [constructor|].
  rewrite filter_cons. case_decide; [|done].
  constructor; [done|].
  apply Forall_forall. intros y [_ Hy]%list_elem_of_filter.
  rewrite Forall_forall in Hx. by apply Hx.
Qed.

Lemma elem_of_setdiff1d_arange (n : nat) (idx : list nat) (i : nat) :
  i ∈ setdiff1d (arange n) idx ↔ i < n ∧ i ∉ idx.
Proof.
  rewrite setdiff1d_arange, list_elem_of_filter, elem_of_seq. naive_solver lia.
Qed.

Lemma setdiff1d_arange_sorted (n : nat) (idx : list nat) :
  StronglySorted lt (setdiff1d (arange n) idx).
Proof.
  rewrite setdiff1d_arange. apply StronglySorted_filter, StronglySorted_seq.
Qed.

Lemma setdiff1d_arange_bound (n : nat) (idx : list nat) :
  Forall (λ i, i < n) (setdiff1d (arange n) idx).
Proof. apply Forall_forall. by intros i [? _]%elem_of_setdiff1d_arange. Qed.

Lemma filter_none {A : Type} (P : A → Prop) `{!∀ x, Decision (P x)}
    (l : list A) :
  Forall (λ x, ¬ P x) l → filter P l = [].
Proof.
  induction 1 as [|x l Hx _ IH]; [done|]. by rewrite filter_cons_False.
Qed.

Lemma length_filter_split {A : Type} (P : A → Prop)
    `{!∀ x, Decision (P x)} (l : list A) :
  length (filter P l) + length (filter (λ x, ¬ P x) l) = length l.
Proof.
  induction l as [|x l IH]; [done|].
  rewrite !filter_cons. destruct (decide (P x)), (decide (¬ P x));
    simpl; try lia; tauto.
Qed.

(** The indices not drawn are as many as the rows that do not remain. *)
Lemma setdiff1d_arange_length (n : nat) (idx : list nat) :
  NoDup idx → Forall (λ i, i < n) idx →
  length (setdiff1d (arange n) idx) = n - length idx.
Proof.
  intros Hnd Hb. rewrite setdiff1d_arange.
  assert (filter (λ i, i ∈ idx) (seq 0 n) ≡ₚ idx) as Hperm.
  { apply NoDup_Permutation; [apply NoDup_filter, NoDup_seq | done |].
    intros i. rewrite list_elem_of_filter, elem_of_seq.
    rewrite Forall_forall in Hb. naive_solver lia. }
  pose proof (length_filter_split (λ i, i ∈ idx) (seq 0 n)) as Hsplit.
  rewrite Hperm, length_seq in Hsplit.
  change (λ i, i ∉ idx) with (λ i, ¬ i ∈ idx). lia.
Qed.

(** ** Dataset dicts *)

Section DatasetDictProofs.
Context {Ex : Type}.
Implicit Types (ds : gmap string (list Ex)).

Lemma foldl_insert_lookup_ne (draws : list (draw Ex))
    (m : gmap string (list Ex)) k :
  k ∉ dr_split <$> draws →
  foldl (λ m dr, <[dr_split dr := dr_kept dr]> m) m draws !! k = m !! k.
Proof.
  revert m. induction draws as [|dr draws IH]; intros m Hk; [done|].
  csimpl in *. apply not_elem_of_cons in Hk as [Hne Hk].
  rewrite IH by done. by rewrite lookup_insert_ne.
Qed.

Lemma foldl_insert_lookup (draws : list (draw Ex))
    (m : gmap string (list Ex)) dr :
  NoDup (dr_split <$> draws) → dr ∈ draws →
  foldl (λ m dr, <[dr_split dr := dr_kept dr]> m) m draws !! dr_split dr
  = Some (dr_kept dr).
Proof.
  revert m. induction draws as [|dr' draws IH]; intros m Hnd Hdr.
  { by apply elem_of_nil in Hdr. }
  csimpl in *. apply NoDup_cons in Hnd as [Hnotin Hnd].
  apply elem_of_cons in Hdr as [->|Hdr]; [|by apply IH].
  rewrite foldl_insert_lookup_ne by done. apply lookup_insert_eq.
Qed.

Lemma total_size_empty : total_size (∅ : gmap string (list Ex)) = 0.
Proof. unfold total_size. by rewrite map_to_list_empty. Qed.

Lemma total_size_insert (m : gmap string (list Ex)) k d :
  m !! k = None → total_size (<[k := d]> m) = length d + total_size m.
Proof.
  intros Hk. unfold total_size. by rewrite map_to_list_insert.
Qed.

Lemma total_size_foldl_insert (draws : list (draw Ex))
    (m : gmap string (list Ex)) :
  NoDup (dr_split <$> draws) →
  Forall (λ dr, m !! dr_split dr = None) draws →
  total_size (foldl (λ m dr, <[dr_split dr := dr_kept dr]> m) m draws)
  = sum_list (length ∘ dr_kept <$> draws) + total_size m.
Proof.
  revert m. induction draws as [|dr draws IH]; intros m Hnd Hm; [done|].
  csimpl in *. apply NoDup_cons in Hnd as [Hnotin Hnd].
  apply Forall_cons in Hm as [Hdr Hm].
  rewrite IH; [rewrite total_size_insert by done; csimpl; lia | done |].
  apply Forall_forall. intros dr' Hdr'.
  rewrite lookup_insert_ne; [by eapply Forall_forall in Hm|].
  intros Heq. apply Hnotin. rewrite Heq. by apply list_elem_of_fmap_2.
Qed.

Lemma restrict_empty ds : restrict ∅ ds = ∅.
Proof.
  unfold restrict. apply map_eq. intros k.
  rewrite lookup_empty. apply map_lookup_filter_None. right.
  intros d _. simpl. set_solver.
Qed.

Lemma restrict_insert ds (names : gset string) k d :
  ds !! k = Some d →
  restrict ({[k]} ∪ names) ds = <[k := d]> (restrict names ds).
Proof.
  intros Hk. unfold restrict. apply map_eq. intros k'.
  destruct (decide (k = k')) as [<-|Hne].
  - rewrite lookup_insert_eq. apply map_lookup_filter_Some. split; [done|].
    simpl. set_solver.
  - rewrite lookup_insert_ne by done. rewrite !map_lookup_filter.
    destruct (ds !! k') as [d'|]; simpl; [|done].
    apply option_guard_iff. set_solver.
Qed.

Lemma total_size_restrict ds (names : list string) :
  NoDup names →
  Forall (λ k, is_Some (ds !! k)) names →
  total_size (restrict (list_to_set names) ds)
  = sum_list ((λ k, length (default [] (ds !! k))) <$> names).
Proof.
  induction 1 as [|k names Hk Hnd IH]; intros Hnames; simpl.
  { by rewrite restrict_empty, total_size_empty. }
  apply Forall_cons in Hnames as [[d Hd] Hnames].
  rewrite (restrict_insert _ _ _ d Hd), total_size_insert, IH, Hd; [done..|].
  apply map_lookup_filter_None. right. intros d' _. simpl.
  by rewrite elem_of_list_to_set.
Qed.

End DatasetDictProofs.

(** ** The split rebalancer *)

Section RebalancerProofs.
Context {Ex : Type} (G : Generator) `{!GeneratorLaws G}.
Implicit Types (d r : list Ex) (ds : gmap string (list Ex)).
Implicit Types (idx : list nat) (item : string * Z) (dr : draw Ex).

Lemma select_Ok d idx r : select d idx = Ok r ↔ rows_at d idx r.
Proof.
  unfold select, rows_at. rewrite mapM_result_Ok.
  split; intros H; (eapply Forall2_impl; [exact H|]); clear H;
    intros i x; cbv beta; destruct (d !! i) as [y|]; intros [=]; by subst.
Qed.

Lemma select_total d idx :
  Forall (λ i, i < length d) idx → ∃ r, select d idx = Ok r.
Proof.
  intros Hb. setoid_rewrite select_Ok. unfold rows_at.
  induction Hb as [|i idx Hi _ [r IH]]; [by exists []|].
  destruct (lookup_lt_is_Some_2 d i Hi) as [x Hx].
  exists (x :: r). by constructor.
Qed.

Lemma rows_at_length d idx r : rows_at d idx r → length r = length idx.
Proof. intros H. symmetry. by eapply Forall2_length. Qed.

Lemma rows_at_lookup d idx r j i :
  rows_at d idx r → idx !! j = Some i → r !! j = d !! i.
Proof.
  intros H Hj. destruct (Forall2_lookup_l _ _ _ _ _ H Hj) as (x & -> & Hx).
  done.
Qed.

(** An iteration on a split larger than its non-negative target. *)
Lemma shrink_body_shrunk ds (st : loop_state G) split size d :
  ds !! split = Some d →
  (0 ≤ size < Z.of_nat (length d))%Z →
  ∃ dr, drawn G ds (split, size) dr ∧
        dr_idx dr = (sample G (rng G st) (length d) (Z.to_nat size)).1 ∧
        shrink_body G ds st (split, size)
        = Ok (LoopState G (sample G (rng G st) (length d) (Z.to_nat size)).2
                (<[split := dr_kept dr]> (dataset G st))
                (moved G st ++ [dr_moved dr])).
Proof.
  intros Hd Hsize.
  set (s := sample G (rng G st) (length d) (Z.to_nat size)).
  assert (Z.to_nat size ≤ length d) as Hk by lia.
  destruct (select_total d s.1) as [kept Hkept].
  { by apply sample_bound. }
  destruct (select_total d (setdiff1d (arange (length d)) s.1)) as [mv Hmv].
  { apply setdiff1d_arange_bound. }
  exists (Draw split d s.1 kept mv). split; [|split; [done|]].
  - repeat split; simpl; try done; try lia. by exists (rng G st).
  - unfold shrink_body. rewrite (getitem_Some _ _ _ Hd). simpl.
    rewrite decide_True by lia. unfold choice.
    rewrite !decide_False by lia. simpl.
    fold s. destruct s as [idx rng']. simpl in *.
    rewrite Hkept. simpl. by rewrite Hmv.
Qed.

(** An iteration on a split at or below its target changes nothing. *)
Lemma shrink_body_skip ds (st : loop_state G) split size d :
  ds !! split = Some d →
  (Z.of_nat (length d) ≤ size)%Z →
  shrink_body G ds st (split, size) = Ok st.
Proof.
  intros Hd Hsize. unfold shrink_body. rewrite (getitem_Some _ _ _ Hd). simpl.
  by rewrite decide_False by lia.
Qed.

Lemma shrink_body_missing ds (st : loop_state G) split size :
  ds !! split = None →
  shrink_body G ds st (split, size) = Raise (KeyError split).
Proof. intros Hd. unfold shrink_body. by rewrite (getitem_None _ _ Hd). Qed.

Lemma drawn_idx ds item dr :
  drawn G ds item dr →
  length (dr_idx dr) = Z.to_nat item.2 ∧ NoDup (dr_idx dr) ∧
  Forall (λ i, i < length (dr_rows dr)) (dr_idx dr).
Proof.
  intros (_ & _ & Hsize & [st ->] & _).
  assert (Z.to_nat item.2 ≤ length (dr_rows dr)) by lia.
  auto using sample_length, sample_NoDup, sample_bound.
Qed.

Lemma drawn_kept_length ds item dr :
  drawn G ds item dr → length (dr_kept dr) = Z.to_nat item.2.
Proof.
  intros Hdr. destruct (drawn_idx _ _ _ Hdr) as (<- & _).
  destruct Hdr as (_ & _ & _ & _ & Hk%select_Ok & _).
  by apply rows_at_length in Hk.
Qed.

Lemma drawn_moved_length ds item dr :
  drawn G ds item dr →
  length (dr_moved dr) = length (dr_rows dr) - Z.to_nat item.2.
Proof.
  intros Hdr. destruct (drawn_idx _ _ _ Hdr) as (<- & Hnd & Hb).
  destruct Hdr as (_ & _ & _ & _ & _ & Hm%select_Ok).
  apply rows_at_length in Hm. rewrite Hm.
  by apply setdiff1d_arange_length.
Qed.

Lemma drawn_lengths ds item dr :
  drawn G ds item dr →
  length (dr_kept dr) + length (dr_moved dr) = length (dr_rows dr).
Proof.
  intros Hdr. rewrite (drawn_kept_length _ _ _ Hdr).
  rewrite (drawn_moved_length _ _ _ Hdr).
  destruct Hdr as (_ & _ & Hsize & _). lia.
Qed.

Lemma is_shrunk_true ds split size d :
  ds !! split = Some d →
  is_shrunk ds (split, size) ↔ (size < Z.of_nat (length d))%Z.
Proof.
  intros Hd. unfold is_shrunk. simpl. rewrite Hd. apply bool_decide_spec.
Qed.

(** The loop, from any state: it runs to the end when every name is in
    [ds] and no target is negative; the shrunk items, in order, each leave
    an entry in [dataset] and a block at the end of [moved]. *)
Lemma shrink_loop_spec ds (items : list (string * Z)) (st0 : loop_state G) :
  Forall (λ it, is_Some (ds !! it.1) ∧ (0 ≤ it.2)%Z) items →
  ∃ st draws,
    foldlM (shrink_body G ds) st0 items = Ok st ∧
    Forall2 (drawn G ds) (filter (λ it, is_shrunk ds it) items) draws ∧
    dataset G st
    = foldl (λ m dr, <[dr_split dr := dr_kept dr]> m) (dataset G st0) draws ∧
    moved G st = moved G st0 ++ (dr_moved <$> draws).
Proof.
  intros Hitems. revert st0.
  induction Hitems as [|[split size] items [[d Hd] Hsize] _ IH]; intros st0.
  { exists st0, []. simpl. rewrite app_nil_r. by repeat split. }
  simpl in Hd, Hsize. rewrite filter_cons.
  destruct (decide (size < Z.of_nat (length d))%Z) as [Hlt|Hge].
  - destruct (shrink_body_shrunk ds st0 split size d Hd) as (dr & Hdr & _ & Hb);
      [lia|].
    destruct (IH (LoopState G
      (sample G (rng G st0) (length d) (Z.to_nat size)).2
      (<[split := dr_kept dr]> (dataset G st0))
      (moved G st0 ++ [dr_moved dr]))) as (st & draws & Hrun & Hdraws & Hds & Hmv).
    exists st, (dr :: draws). rewrite foldlM_cons, Hb, bind_Ok.
    rewrite decide_True by (by apply (is_shrunk_true ds split size d)).
    split; [done|]. split; [by constructor|]. split.
    + rewrite Hds. simpl. by destruct Hdr as (-> & _).
    + rewrite Hmv. simpl. by rewrite <-app_assoc.
  - destruct (IH st0) as (st & draws & Hrun & Hdraws & Hds & Hmv).
    exists st, draws.
    rewrite foldlM_cons, (shrink_body_skip ds st0 split size d Hd), bind_Ok
      by lia.
    rewrite decide_False; [done|].
    rewrite (is_shrunk_true ds split size d Hd). lia.
Qed.

(** The whole call, when it can run: the entries of the shrunk splits, then
    the growth split rebuilt from its rows in [ds] and the moved blocks. *)
Lemma skrink_splits_spec ds (items : list (string * Z)) grow seed g :
  (0 ≤ seed)%Z →
  Forall (λ it, is_Some (ds !! it.1) ∧ (0 ≤ it.2)%Z) items →
  ds !! grow = Some g →
  ∃ draws,
    Forall2 (drawn G ds) (filter (λ it, is_shrunk ds it) items) draws ∧
    skrink_splits G ds items grow seed
    = Ok (<[grow := g ++ concat (dr_moved <$> draws)]>
            (foldl (λ m dr, <[dr_split dr := dr_kept dr]> m) ∅ draws)).
Proof.
  intros Hseed Hitems Hg.
  destruct (shrink_loop_spec ds items (LoopState G (seed_state G seed) ∅ []))
    as (st & draws & Hrun & Hdraws & Hds & Hmv); [done|].
  exists draws. split; [done|]. unfold skrink_splits, default_rng.
  rewrite decide_False by lia. rewrite bind_Ok, Hrun, bind_Ok.
  rewrite (getitem_Some _ _ _ Hg), bind_Ok.
  by rewrite Hds, Hmv.
Qed.

Lemma drawn_splits ds (items : list (string * Z)) (draws : list (draw Ex)) :
  Forall2 (drawn G ds) items draws → dr_split <$> draws = items.*1.
Proof.
  induction 1 as [|item dr items draws (Hs & _) _ IH]; [done|].
  rewrite !fmap_cons. by f_equal.
Qed.

Lemma filter_names_NoDup (P : string * Z → Prop) `{!∀ x, Decision (P x)}
    (items : list (string * Z)) :
  NoDup items.*1 → NoDup (filter P items).*1.
Proof.
  intros Hnd. eapply sublist_NoDup; [exact Hnd|].
  apply fmap_sublist, sublist_filter.
Qed.

Lemma Forall2_elem_of_split {A B : Type} (P : A → B → Prop) (l : list A)
    (k : list B) (x : A) :
  Forall2 P l k → x ∈ l → ∃ k1 y k2, k = k1 ++ y :: k2 ∧ P x y.
Proof.
  intros HF (l1 & l2 & ->)%list_elem_of_split.
  apply Forall2_app_inv_l in HF as (k1 & k' & _ & HF & ->).
  apply Forall2_cons_inv_l in HF as (y & k2 & Hxy & _ & ->).
  by exists k1, y, k2.
Qed.

Lemma NoDup_fst_agree (items : list (string * Z)) k (z1 z2 : Z) :
  NoDup items.*1 → (k, z1) ∈ items → (k, z2) ∈ items → z1 = z2.
Proof.
  induction items as [|[k' z'] items IH]; csimpl; intros Hnd H1 H2.
  { by apply elem_of_nil in H1. }
  apply NoDup_cons in Hnd as [Hnotin Hnd].
  apply elem_of_cons in H1 as [H1|H1]; apply elem_of_cons in H2 as [H2|H2];
    simplify_eq; try done; try by apply IH.
  - destruct Hnotin. by apply (list_elem_of_fmap_2 fst _ (k', z2)).
  - destruct Hnotin. by apply (list_elem_of_fmap_2 fst _ (k', z1)).
Qed.

(** A split that the loop does not shrink gets no entry from the loop. *)
Lemma not_shrunk_not_drawn ds (items : list (string * Z))
    (draws : list (draw Ex)) split size :
  NoDup items.*1 → (split, size) ∈ items → ¬ is_shrunk ds (split, size) →
  Forall2 (drawn G ds) (filter (λ it, is_shrunk ds it) items) draws →
  split ∉ dr_split <$> draws.
Proof.
  intros Hnd Hin Hns Hdraws. rewrite (drawn_splits _ _ _ Hdraws).
  intros ([k z] & Hk & [Hsh Hin']%list_elem_of_filter)%list_elem_of_fmap.
  simpl in Hk. subst k.
  by rewrite (NoDup_fst_agree items split size z Hnd Hin Hin') in Hns.
Qed.

Lemma sum_drawn_rows ds (items : list (string * Z)) (draws : list (draw Ex)) :
  Forall2 (drawn G ds) items draws →
  sum_list (length ∘ dr_kept <$> draws) + sum_list (length ∘ dr_moved <$> draws)
  = sum_list ((λ k, length (default [] (ds !! k))) <$> items.*1).
Proof.
  induction 1 as [|item dr items draws Hdr _ IH]; [done|]. csimpl.
  pose proof (drawn_lengths _ _ _ Hdr) as Hlen.
  destruct Hdr as (_ & -> & _). simpl. lia.
Qed.

Lemma length_concat_fmap {A B : Type} (f : A → list B) (l : list A) :
  length (concat (f <$> l)) = sum_list (length ∘ f <$> l).
Proof. induction l as [|x l IH]; csimpl; [done|]. by rewrite length_app, IH. Qed.

End RebalancerProofs.

#[global] Instance rotating_rng_laws : GeneratorLaws rotating_rng.
Proof.
  split; intros st n k Hk; simpl.
  - rewrite length_take, length_rotate, length_seq. lia.
  - eapply sublist_NoDup; [|apply sublist_take].
    unfold rotate. rewrite Permutation_app_comm, take_drop. apply NoDup_seq.
  - apply Forall_forall. intros i Hi.
    apply (elem_of_sublist _ (rotate st (seq 0 n))) in Hi; [|apply sublist_take].
    apply elem_of_rotate, elem_of_seq in Hi. lia.
Qed.

#[global] Instance descending_rng_laws : GeneratorLaws descending_rng.
Proof.
  split; intros st n k Hk; simpl.
  - rewrite length_take, length_reverse, length_seq. lia.
  - eapply sublist_NoDup; [|apply sublist_take].
    rewrite reverse_Permutation. apply NoDup_seq.
  - apply Forall_forall. intros i Hi.
    apply (elem_of_sublist _ (reverse (seq 0 n))) in Hi; [|apply sublist_take].
    apply elem_of_reverse, elem_of_seq in Hi. lia.
Qed.

(** ** Rows kept and rows moved *)

Section RebalancerFurther.
Context {Ex : Type}.
Implicit Types (d r : list Ex) (ds : gmap string (list Ex)).

Lemma rows_at_unique d (idx : list nat) r1 r2 :
  rows_at d idx r1 → rows_at d idx r2 → r1 = r2.
Proof.
  intros H1 H2. eapply Forall2_unique; [exact H1|exact H2|].
  intros i x y Hx Hy. congruence.
Qed.

Lemma rows_at_all d : rows_at d (seq 0 (length d)) d.
Proof.
  apply Forall2_same_length_lookup_2; [by rewrite length_seq|].
  intros i j x [-> _]%lookup_seq Hx. done.
Qed.

Lemma rows_at_app d (idx1 idx2 : list nat) r1 r2 :
  rows_at d idx1 r1 → rows_at d idx2 r2 → rows_at d (idx1 ++ idx2) (r1 ++ r2).
Proof. apply Forall2_app. Qed.

(** Rows taken at a permutation of some indices are a permutation of the
    rows taken at those indices. *)
Lemma rows_at_Permutation d (idx1 idx2 : list nat) r1 :
  idx1 ≡ₚ idx2 → rows_at d idx1 r1 → ∃ r2, rows_at d idx2 r2 ∧ r1 ≡ₚ r2.
Proof.
  unfold rows_at. intros Hperm. revert r1.
  induction Hperm as [|i idx1 idx2 _ IH|i j idx|idx1 idx2 idx3 _ IH1 _ IH2];
    intros r1 Hr1.
  - apply Forall2_nil_inv_l in Hr1 as ->. by exists [].
  - apply Forall2_cons_inv_l in Hr1 as (x & r & Hx & Hr & ->).
    destruct (IH r Hr) as (r2 & Hr2 & Hp).
    exists (x :: r2). split; [by constructor|by apply perm_skip].
  - apply Forall2_cons_inv_l in Hr1 as (x & r & Hx & Hr & ->).
    apply Forall2_cons_inv_l in Hr as (y & r' & Hy & Hr' & ->).
    exists (y :: x :: r'). split; [by repeat constructor|]. apply perm_swap.
  - destruct (IH1 r1 Hr1) as (r2 & Hr2 & Hp).
    destruct (IH2 r2 Hr2) as (r3 & Hr3 & Hp').
    exists r3. split; [done|]. by etrans.
Qed.

(** The indices drawn and the indices left over are, together, all the
    indices of the split. *)
Lemma sample_setdiff1d_Permutation (n : nat) (idx : list nat) :
  NoDup idx → Forall (λ i, i < n) idx →
  idx ++ setdiff1d (arange n) idx ≡ₚ seq 0 n.
Proof.
  intros Hnd Hb. rewrite Forall_forall in Hb.
  apply NoDup_Permutation; [|apply NoDup_seq|].
  - apply NoDup_app. split; [done|]. split.
    + intros i Hi [_ Hni]%elem_of_setdiff1d_arange. done.
    + rewrite setdiff1d_arange. apply NoDup_filter, NoDup_seq.
  - intros i. rewrite elem_of_app, elem_of_setdiff1d_arange, elem_of_seq.
    destruct (decide (i ∈ idx)) as [Hi|Hi]; [|naive_solver lia].
    specialize (Hb i Hi). naive_solver lia.
Qed.

Lemma foldl_insert_is_Some (draws : list (draw Ex))
    (m : gmap string (list Ex)) (k : string) :
  is_Some (foldl (λ m dr, <[dr_split dr := dr_kept dr]> m) m draws !! k) ↔
  is_Some (m !! k) ∨ k ∈ dr_split <$> draws.
Proof.
  revert m. induction draws as [|dr draws IH]; intros m; csimpl.
  { rewrite elem_of_nil. tauto. }
  rewrite IH, elem_of_cons. destruct (decide (dr_split dr = k)) as [<-|Hne].
  - rewrite lookup_insert_eq. split; [|by eauto]. intros [_|H]; auto.
  - rewrite lookup_insert_ne by done. naive_solver.
Qed.

End RebalancerFurther.

Section RebalancerFurtherG.
Context {Ex : Type} (G : Generator) `{!GeneratorLaws G}.
Implicit Types (d r : list Ex) (ds : gmap string (list Ex)).

(** An iteration splits the rows of its split in two: the rows kept and the
    rows moved are, together, the rows of the split, each once. *)
Lemma drawn_partition ds (item : string * Z) (dr : draw Ex) :
  drawn G ds item dr → dr_kept dr ++ dr_moved dr ≡ₚ dr_rows dr.
Proof.
  intros Hdr. destruct (drawn_idx G _ _ _ Hdr) as (_ & Hnd & Hb).
  destruct Hdr as (_ & _ & _ & _ & Hk%select_Ok & Hm%select_Ok).
  pose proof (rows_at_app _ _ _ _ _ Hk Hm) as Hall.
  destruct (rows_at_Permutation _ _ _ _
              (sample_setdiff1d_Permutation _ _ Hnd Hb) Hall)
    as (r2 & Hr2 & Hp).
  by rewrite (rows_at_unique _ _ _ _ Hr2 (rows_at_all (dr_rows dr))) in Hp.
Qed.

Lemma sum_drawn_moved ds (items : list (string * Z)) (draws : list (draw Ex)) :
  Forall2 (drawn G ds) items draws →
  sum_list (length ∘ dr_moved <$> draws)
  = sum_list ((λ it, length (default [] (ds !! it.1)) - Z.to_nat it.2)
                <$> items).
Proof.
  induction 1 as [|item dr items draws Hdr _ IH]; [done|]. csimpl.
  rewrite (drawn_moved_length G _ _ _ Hdr), IH.
  destruct Hdr as (_ & -> & _). done.
Qed.

(** An iteration of the loop, said without the code's helpers. *)
Lemma drawn_shrinks ds (item : string * Z) (dr : draw Ex) :
  drawn G ds item dr →
  shrinks G ds item (dr_idx dr) (dr_kept dr) (dr_moved dr).
Proof.
  intros Hdr.
  pose proof (drawn_partition _ _ _ Hdr) as Hperm.
  pose proof (drawn_kept_length G _ _ _ Hdr) as Hkept.
  pose proof (drawn_moved_length G _ _ _ Hdr) as Hmoved.
  destruct Hdr as (_ & Hd & Hsize & Hst & Hk%select_Ok & Hm%select_Ok).
  exists (dr_rows dr). do 4 (split; [done|]). split.
  { exists (setdiff1d (arange (length (dr_rows dr))) (dr_idx dr)).
    split; [apply setdiff1d_arange_sorted|]. split; [|done].
    intros i. apply elem_of_setdiff1d_arange. }
  split; [done|]. split; [lia|done].
Qed.

(** The call, said without the code's helpers: the blocks appended to the
    growth split are, item by item, the rows that the shrunk splits do not
    keep. *)
Lemma skrink_splits_blocks ds (items : list (string * Z)) grow seed g :
  (0 ≤ seed)%Z →
  Forall (λ it, is_Some (ds !! it.1) ∧ (0 ≤ it.2)%Z) items →
  ds !! grow = Some g →
  ∃ out blocks,
    skrink_splits G ds items grow seed = Ok out ∧
    out !! grow = Some (g ++ concat blocks) ∧
    Forall2 (λ item blk,
               ∃ idx kept,
                 shrinks G ds item idx kept blk ∧
                 (NoDup items.*1 → item.1 ≠ grow →
                  out !! item.1 = Some kept))
      (filter (λ it, is_shrunk ds it) items) blocks.
Proof.
  intros Hseed Hitems Hg.
  destruct (skrink_splits_spec G ds items grow seed g)
    as (draws & Hdraws & Hrun); [done..|].
  eexists _, (dr_moved <$> draws). split; [exact Hrun|].
  split; [apply lookup_insert_eq|].
  apply Forall2_fmap_r, Forall2_same_length_lookup.
  split; [by eapply Forall2_length|].
  intros i item dr Hitem Hdr.
  pose proof (Forall2_lookup_lr _ _ _ _ _ _ Hdraws Hitem Hdr) as Hdrawn.
  exists (dr_idx dr), (dr_kept dr). split; [by apply drawn_shrinks|].
  intros Hnd Hne. rewrite lookup_insert_ne by done.
  destruct Hdrawn as (<- & _). apply foldl_insert_lookup.
  - rewrite (drawn_splits G _ _ _ Hdraws). by apply filter_names_NoDup.
  - by eapply list_elem_of_lookup_2.
Qed.

End RebalancerFurtherG.

(** ** Properties of [skrink_splits] *)

Section TwoRuns.
Context {Ex : Type} (G1 G2 : Generator).
Context (R : rng_state G1 → rng_state G2 → Prop).
Context (ds : gmap string (list Ex)).

(** One iteration in two runs whose generators draw alike: the same
    exception, or the same entries and blocks and generators that still
    draw alike. *)
Lemma shrink_body_alike (st1 : loop_state G1) (st2 : loop_state G2)
    (item : string * Z) :
  draw_alike G1 G2 R →
  R (rng G1 st1) (rng G2 st2) →
  dataset G1 st1 = dataset G2 st2 → moved G1 st1 = moved G2 st2 →
  match shrink_body G1 ds st1 item, shrink_body G2 ds st2 item with
  | Ok st1', Ok st2' =>
      R (rng G1 st1') (rng G2 st2') ∧
      dataset G1 st1' = dataset G2 st2' ∧ moved G1 st1' = moved G2 st2'
  | Raise e1, Raise e2 => e1 = e2
  | _, _ => False
  end.
Proof.
  intros Halike HR Hds Hmv. destruct item as [split size].
  unfold shrink_body. destruct (getitem ds split) as [d|e]; [|done].
  rewrite !bind_Ok. case_decide; [|done]. unfold choice.
  repeat case_decide; try done. rewrite !bind_Ok.
  destruct (Halike (rng G1 st1) (rng G2 st2) (length d) (Z.to_nat size) HR)
    as [Hidx HR'].
  destruct (sample G1 _ _ _) as [idx1 r1], (sample G2 _ _ _) as [idx2 r2].
  simpl in Hidx, HR'. subst idx2.
  destruct (select d idx1) as [kept|e]; [|done]. rewrite !bind_Ok.
  destruct (select d (setdiff1d _ idx1)) as [mv|e]; [|done]. rewrite !bind_Ok.
  simpl. by rewrite Hds, Hmv.
Qed.

Lemma shrink_loop_alike (items : list (string * Z))
    (st1 : loop_state G1) (st2 : loop_state G2) :
  draw_alike G1 G2 R →
  R (rng G1 st1) (rng G2 st2) →
  dataset G1 st1 = dataset G2 st2 → moved G1 st1 = moved G2 st2 →
  match foldlM (shrink_body G1 ds) st1 items,
        foldlM (shrink_body G2 ds) st2 items with
  | Ok st1', Ok st2' =>
      dataset G1 st1' = dataset G2 st2' ∧ moved G1 st1' = moved G2 st2'
  | Raise e1, Raise e2 => e1 = e2
  | _, _ => False
  end.
Proof.
  intros Halike. revert st1 st2.
  induction items as [|item items IH]; intros st1 st2 HR Hds Hmv; [done|].
  rewrite !foldlM_cons.
  pose proof (shrink_body_alike st1 st2 item Halike HR Hds Hmv) as Hbody.
  destruct (shrink_body G1 ds st1 item) as [st1'|e1],
    (shrink_body G2 ds st2 item) as [st2'|e2]; try done.
  rewrite !bind_Ok. destruct Hbody as (HR' & Hds' & Hmv'). by apply IH.
Qed.

End TwoRuns.

(** C7. Two runs of [skrink_splits] with the same seed, the same dataset, the
    same target sizes (same items in the same order) and the same growth
    split give the same outcome: the same splits with the same examples in
    the same order, or the same exception.  The runs may use two generator
    objects: it is enough that, seeded alike, they draw alike.  The seed is
    what selects: with a generator whose draws depend on its state, seeds 0
    and 1 keep different rows. *)
Theorem skrink_splits_deterministic :
  (∀ (Ex : Type) (G1 G2 : Generator)
     (R : rng_state G1 → rng_state G2 → Prop)
     (ds : gmap string (list Ex)) (split_sizes : list (string * Z))
     (grow_split : string) (seed : Z),
     draw_alike G1 G2 R →
     R (seed_state G1 seed) (seed_state G2 seed) →
     skrink_splits G1 ds split_sizes grow_split seed
     = skrink_splits G2 ds split_sizes grow_split seed) ∧
  (∃ out0 out1,
     skrink_splits rotating_rng example_ds [("test", 2%Z)] "train" 0 = Ok out0 ∧
     skrink_splits rotating_rng example_ds [("test", 2%Z)] "train" 1 = Ok out1 ∧
     out0 !! "test" = Some [10; 11] ∧ out1 !! "test" = Some [11; 12]).
Proof.
  split.
  - intros Ex G1 G2 R ds split_sizes grow_split seed Halike Hseed.
    unfold skrink_splits, default_rng. case_decide; [done|]. rewrite !bind_Ok.
    pose proof (shrink_loop_alike G1 G2 R ds split_sizes
                  (LoopState G1 (seed_state G1 seed) ∅ [])
                  (LoopState G2 (seed_state G2 seed) ∅ [])
                  Halike Hseed eq_refl eq_refl) as Hloop.
    destruct (foldlM (shrink_body G1 ds) _ _) as [st1|e1],
      (foldlM (shrink_body G2 ds) _ _) as [st2|e2]; try done.
    + destruct Hloop as [Hds Hmv]. rewrite !bind_Ok.
      destruct (getitem ds grow_split) as [g|e]; [|done].
      by rewrite !bind_Ok, Hds, Hmv.
    + by rewrite Hloop.
  - eexists _, _. split; [vm_compute; reflexivity|].
    split; [vm_compute; reflexivity|]. split; vm_compute; reflexivity.
Qed.

Lemma skrink_splits_deterministic_witness :
  skrink_splits rotating_rng example_ds [("test", 2%Z)] "train" 1
  = skrink_splits rotating_rng_Z example_ds [("test", 2%Z)] "train" 1.
Proof.
  apply (proj1 skrink_splits_deterministic nat rotating_rng rotating_rng_Z
           (λ (s1 : nat) (s2 : Z), s1 = Z.to_nat s2 ∧ (0 ≤ s2)%Z)).
  - intros s1 s2 n k [-> Hs2]. simpl. split; [done|]. lia.
  - simpl. lia.
Defined.

(** C6. When the call can run (every named split and the growth split are in
    the dataset, the seed and the targets are not negative), the output
    growth split is the original growth split, rows in their original
    order, followed by one block per shrunk split, in the order of the items
    of the target-size mapping; the block of a split holds the rows of the
    split that the draw does not keep, in their original order (and those
    kept are the output entry of the split); when no named split exceeds its
    target the output growth split is the original growth split. *)
Theorem skrink_splits_growth_split {Ex : Type} (G : Generator)
    `{!GeneratorLaws G} (ds : gmap string (list Ex))
    (split_sizes : list (string * Z)) (grow_split : string) (seed : Z)
    (g : list Ex) :
  (0 ≤ seed)%Z →
  Forall (λ it, is_Some (ds !! it.1) ∧ (0 ≤ it.2)%Z) split_sizes →
  ds !! grow_split = Some g →
  ∃ out blocks,
    skrink_splits G ds split_sizes grow_split seed = Ok out ∧
    out !! grow_split = Some (g ++ concat blocks) ∧
    Forall2 (λ item blk,
               ∃ idx kept,
                 shrinks G ds item idx kept blk ∧
                 (NoDup split_sizes.*1 → item.1 ≠ grow_split →
                  out !! item.1 = Some kept))
      (filter (λ it, is_shrunk ds it) split_sizes) blocks ∧
    (Forall (λ it, ¬ is_shrunk ds it) split_sizes →
     out !! grow_split = Some g).
Proof.
  intros Hseed Hitems Hg.
  destruct (skrink_splits_blocks G ds split_sizes grow_split seed g)
    as (out & blocks & Hrun & Hout & Hblocks); [done..|].
  exists out, blocks. do 3 (split; [done|]).
  intros Hnone. rewrite (filter_none _ _ Hnone) in Hblocks.
  apply Forall2_nil_inv_l in Hblocks as ->.
  by rewrite Hout, app_nil_r.
Qed.

(** The precondition on the items of a concrete target-size mapping. *)
Ltac items_ok :=
  repeat first
    [ apply Forall_nil_2 | apply Forall_cons_2 | split | progress simpl
    | lia | (eexists; vm_compute; reflexivity) ].

Lemma skrink_splits_growth_split_witness :
  ∃ out blocks,
    skrink_splits descending_rng example_ds [("test", 2%Z)] "train" 0 = Ok out ∧
    out !! "train" = Some ([0; 1; 2] ++ concat blocks) ∧
    Forall2 (λ item blk,
               ∃ idx kept,
                 shrinks descending_rng example_ds item idx kept blk ∧
                 (NoDup [("test", 2%Z)].*1 → item.1 ≠ "train" →
                  out !! item.1 = Some kept))
      (filter (λ it, is_shrunk example_ds it) [("test", 2%Z)]) blocks ∧
    (Forall (λ it, ¬ is_shrunk example_ds it) [("test", 2%Z)] →
     out !! "train" = Some [0; 1; 2]).
Proof.
  apply (skrink_splits_growth_split descending_rng).
  - lia.
  - items_ok.
  - reflexivity.
Defined.

(** What the call does with one shrunk item: its moved rows are a block of
    the output growth split, after the original growth rows, and its kept
    rows are the entry of the split unless the split is the growth split. *)
Lemma skrink_splits_shrunk_item {Ex : Type} (G : Generator)
    `{!GeneratorLaws G} (ds : gmap string (list Ex))
    (split_sizes : list (string * Z)) (grow_split : string) (seed : Z)
    (g : list Ex) (item : string * Z) :
  (0 ≤ seed)%Z →
  Forall (λ it, is_Some (ds !! it.1) ∧ (0 ≤ it.2)%Z) split_sizes →
  ds !! grow_split = Some g →
  item ∈ split_sizes → is_shrunk ds item →
  ∃ out dr pre post,
    skrink_splits G ds split_sizes grow_split seed = Ok out ∧
    drawn G ds item dr ∧
    out !! grow_split = Some (g ++ pre ++ dr_moved dr ++ post) ∧
    (NoDup split_sizes.*1 → item.1 ≠ grow_split →
     out !! item.1 = Some (dr_kept dr)).
Proof.
  intros Hseed Hitems Hg Hin Hsh.
  destruct (skrink_splits_spec G ds split_sizes grow_split seed g)
    as (draws & Hdraws & Hrun); [done..|].
  assert (item ∈ filter (λ it, is_shrunk ds it) split_sizes) as Hin'.
  { by apply list_elem_of_filter. }
  destruct (Forall2_elem_of_split _ _ _ _ Hdraws Hin')
    as (k1 & dr & k2 & Hk & Hdr).
  eexists _, dr, (concat (dr_moved <$> k1)), (concat (dr_moved <$> k2)).
  split; [exact Hrun|]. split; [done|]. split.
  - rewrite lookup_insert_eq, Hk. do 2 f_equal.
    by rewrite fmap_app, concat_app, fmap_cons.
  - intros Hnd Hne. rewrite lookup_insert_ne by done.
    destruct Hdr as (<- & _). apply foldl_insert_lookup.
    + rewrite (drawn_splits G _ _ _ Hdraws). by apply filter_names_NoDup.
    + rewrite Hk. apply elem_of_app. right. apply elem_of_cons. by left.
Qed.

(** C3, as the code has it.  When the call can run, a split named in the
    target-size mapping, other than the growth split, that is larger than its
    target is in the output with exactly the target number of examples; a
    named split at or below its target (equal size included) is skipped
    and, not being the growth split, is not in the output. *)
Theorem skrink_splits_shrunk_size {Ex : Type} (G : Generator)
    `{!GeneratorLaws G} (ds : gmap string (list Ex))
    (split_sizes : list (string * Z)) (grow_split : string) (seed : Z)
    (split : string) (size : Z) :
  (0 ≤ seed)%Z →
  NoDup split_sizes.*1 →
  Forall (λ it, is_Some (ds !! it.1) ∧ (0 ≤ it.2)%Z) split_sizes →
  is_Some (ds !! grow_split) →
  (split, size) ∈ split_sizes → split ≠ grow_split →
  ∃ out,
    skrink_splits G ds split_sizes grow_split seed = Ok out ∧
    (is_shrunk ds (split, size) →
     ∃ kept, out !! split = Some kept ∧ Z.of_nat (length kept) = size) ∧
    (¬ is_shrunk ds (split, size) → out !! split = None).
Proof.
  intros Hseed Hnd Hitems [g Hg] Hin Hne.
  destruct (skrink_splits_spec G ds split_sizes grow_split seed g)
    as (draws & Hdraws & Hrun); [done..|].
  eexists. split; [exact Hrun|]. rewrite lookup_insert_ne by done. split.
  - intros Hsh.
    assert ((split, size) ∈ filter (λ it, is_shrunk ds it) split_sizes)
      as Hin' by (by apply list_elem_of_filter).
    destruct (Forall2_elem_of_split _ _ _ _ Hdraws Hin')
      as (k1 & dr & k2 & Hk & Hdr).
    exists (dr_kept dr). split.
    + destruct Hdr as (Hs & _). simpl in Hs. rewrite <-Hs.
      apply foldl_insert_lookup.
      * rewrite (drawn_splits G _ _ _ Hdraws). by apply filter_names_NoDup.
      * rewrite Hk. apply elem_of_app. right. apply elem_of_cons. by left.
    + rewrite (drawn_kept_length G _ _ _ Hdr). simpl.
      destruct Hdr as (_ & _ & Hsize & _). simpl in Hsize. lia.
  - intros Hns. rewrite foldl_insert_lookup_ne; [apply lookup_empty|].
    by eapply (not_shrunk_not_drawn G).
Qed.

Lemma skrink_splits_shrunk_size_witness :
  ∃ out,
    skrink_splits descending_rng example_ds [("test", 2%Z)] "train" 0 = Ok out ∧
    (is_shrunk example_ds ("test", 2%Z) →
     ∃ kept, out !! "test" = Some kept ∧ Z.of_nat (length kept) = 2%Z) ∧
    (¬ is_shrunk example_ds ("test", 2%Z) → out !! "test" = None).
Proof.
  apply (skrink_splits_shrunk_size descending_rng).
  - lia.
  - apply NoDup_singleton.
  - items_ok.
  - eexists; vm_compute; reflexivity.
  - apply list_elem_of_singleton. reflexivity.
  - discriminate.
Defined.

(** C3 as stated fails when the size equals the target: the test split has
    4 examples and target 4, and the output has no test split. *)
Lemma skrink_splits_equal_size_omitted :
  length <$> example_ds !! "test" = Some 4 ∧
  ∃ out,
    skrink_splits descending_rng example_ds [("test", 4%Z)] "train" 0 = Ok out ∧
    out !! "test" = None.
Proof.
  split; [reflexivity|]. eexists. split; [vm_compute; reflexivity|].
  vm_compute. reflexivity.
Qed.

(** C2, as the code has it.  When the call can run and does not shrink the
    growth split, the output holds as many examples as the input splits that
    are shrunk together with the growth split: a named split at or below its
    target is left out of the output and of the count. *)
Theorem skrink_splits_conservation {Ex : Type} (G : Generator)
    `{!GeneratorLaws G} (ds : gmap string (list Ex))
    (split_sizes : list (string * Z)) (grow_split : string) (seed : Z) :
  (0 ≤ seed)%Z →
  NoDup split_sizes.*1 →
  Forall (λ it, is_Some (ds !! it.1) ∧ (0 ≤ it.2)%Z) split_sizes →
  is_Some (ds !! grow_split) →
  (∀ size, (grow_split, size) ∈ split_sizes →
           ¬ is_shrunk ds (grow_split, size)) →
  ∃ out,
    skrink_splits G ds split_sizes grow_split seed = Ok out ∧
    total_size out
    = total_size
        (restrict
           ({[grow_split]}
            ∪ list_to_set (filter (λ it, is_shrunk ds it) split_sizes).*1)
           ds).
Proof.
  intros Hseed Hnd Hitems [g Hg] Hgrow.
  destruct (skrink_splits_spec G ds split_sizes grow_split seed g)
    as (draws & Hdraws & Hrun); [done..|].
  eexists. split; [exact Hrun|].
  set (names := (filter (λ it, is_shrunk ds it) split_sizes).*1).
  assert (grow_split ∉ names) as Hnotin.
  { intros ([k z] & Hk & [Hsh Hin]%list_elem_of_filter)%list_elem_of_fmap.
    simpl in Hk. subst k. by apply (Hgrow z). }
  assert (NoDup names) as Hnames by (by apply filter_names_NoDup).
  rewrite total_size_insert.
  2:{ rewrite foldl_insert_lookup_ne; [apply lookup_empty|].
      by rewrite (drawn_splits G _ _ _ Hdraws). }
  rewrite total_size_foldl_insert, total_size_empty.
  2:{ by rewrite (drawn_splits G _ _ _ Hdraws). }
  2:{ apply Forall_forall. intros dr _. apply lookup_empty. }
  change ({[grow_split]} ∪ list_to_set names)
    with (list_to_set (C := gset string) (grow_split :: names)).
  rewrite total_size_restrict.
  - csimpl. rewrite Hg. simpl.
    rewrite length_app, length_concat_fmap.
    pose proof (sum_drawn_rows G ds _ _ Hdraws) as Hsum.
    fold names in Hsum. lia.
  - by apply NoDup_cons.
  - apply Forall_cons. split; [by eexists|].
    apply Forall_forall.
    intros k ([k' z] & -> & [_ Hin]%list_elem_of_filter)%list_elem_of_fmap.
    rewrite Forall_forall in Hitems. by destruct (Hitems _ Hin).
Qed.

Lemma skrink_splits_conservation_witness :
  ∃ out,
    skrink_splits descending_rng example_ds [("test", 2%Z)] "train" 0 = Ok out ∧
    total_size out
    = total_size
        (restrict
           ({["train"]}
            ∪ list_to_set
                (filter (λ it, is_shrunk example_ds it) [("test", 2%Z)]).*1)
           example_ds).
Proof.
  apply (skrink_splits_conservation descending_rng).
  - lia.
  - apply NoDup_singleton.
  - items_ok.
  - eexists; vm_compute; reflexivity.
  - intros size [=]%list_elem_of_singleton.
Defined.

(** C2 as stated fails when a named split is not larger than its target:
    the test split, named with target 4 and holding 4 examples, is not in the
    output, which has the 3 examples of train; the named splits and the
    growth split hold 7 examples in the input. *)
Lemma skrink_splits_conservation_fails :
  ∃ out,
    skrink_splits descending_rng example_ds [("test", 4%Z)] "train" 0 = Ok out ∧
    total_size out = 3 ∧
    total_size
      (restrict ({["train"]} ∪ list_to_set [("test", 4%Z)].*1) example_ds) = 7.
Proof.
  eexists. split; [vm_compute; reflexivity|].
  split; vm_compute; reflexivity.
Qed.

(** C1 on the code.  When the growth split is itself named with a target
    below its size, the output growth split still starts with all the
    original growth rows (not with the rows kept by the draw), and the rows
    of the growth split that were not kept follow once more, as one of the
    moved blocks: [length g - size] examples of the growth split occur in
    the output once more than in the input. *)
Theorem skrink_splits_growth_shrunk {Ex : Type} (G : Generator)
    `{!GeneratorLaws G} (ds : gmap string (list Ex))
    (split_sizes : list (string * Z)) (grow_split : string) (seed : Z)
    (g : list Ex) (size : Z) :
  (0 ≤ seed)%Z →
  Forall (λ it, is_Some (ds !! it.1) ∧ (0 ≤ it.2)%Z) split_sizes →
  ds !! grow_split = Some g →
  (grow_split, size) ∈ split_sizes →
  (size < Z.of_nat (length g))%Z →
  ∃ out dr pre post,
    skrink_splits G ds split_sizes grow_split seed = Ok out ∧
    drawn G ds (grow_split, size) dr ∧ dr_rows dr = g ∧
    out !! grow_split = Some (g ++ pre ++ dr_moved dr ++ post) ∧
    rows_at g (setdiff1d (arange (length g)) (dr_idx dr)) (dr_moved dr) ∧
    length (dr_moved dr) = length g - Z.to_nat size.
Proof.
  intros Hseed Hitems Hg Hin Hsize.
  destruct (skrink_splits_shrunk_item G ds split_sizes grow_split seed g
              (grow_split, size))
    as (out & dr & pre & post & Hrun & Hdr & Hout & _); [done..| |].
  { by apply (is_shrunk_true ds grow_split size g). }
  exists out, dr, pre, post.
  assert (dr_rows dr = g) as Hrows.
  { destruct Hdr as (_ & Hd & _). simpl in Hd. congruence. }
  do 4 (split; [done|]). split.
  - destruct Hdr as (_ & _ & _ & _ & _ & Hm%select_Ok). by rewrite Hrows in Hm.
  - by rewrite (drawn_moved_length G _ _ _ Hdr), Hrows.
Qed.

Lemma skrink_splits_growth_shrunk_witness :
  ∃ out dr pre post,
    skrink_splits descending_rng example_ds [("train", 1%Z)] "train" 0 = Ok out ∧
    drawn descending_rng example_ds ("train", 1%Z) dr ∧
    dr_rows dr = [0; 1; 2] ∧
    out !! "train" = Some ([0; 1; 2] ++ pre ++ dr_moved dr ++ post) ∧
    rows_at [0; 1; 2] (setdiff1d (arange 3) (dr_idx dr)) (dr_moved dr) ∧
    length (dr_moved dr) = 3 - Z.to_nat 1.
Proof.
  apply (skrink_splits_growth_shrunk descending_rng example_ds
           [("train", 1%Z)] "train" 0%Z [0; 1; 2] 1%Z).
  - lia.
  - items_ok.
  - reflexivity.
  - apply list_elem_of_singleton. reflexivity.
  - simpl. lia.
Defined.

(** The same input, run: train holds 0, 1, 2 in the input and
    0, 1, 2, 0, 1 in the output. *)
Lemma run_growth_split_shrunk :
  ∃ out,
    skrink_splits descending_rng example_ds [("train", 1%Z)] "train" 0 = Ok out ∧
    out !! "train" = Some [0; 1; 2; 0; 1].
Proof. eexists. split; vm_compute; reflexivity. Qed.

(** The end-to-end example of the specification: 100 train and 20 test
    examples, target 10 for test, growth split train, give 110 train and 10
    test examples, whatever the generator draws. *)
Lemma skrink_splits_end_to_end {Ex : Type} (G : Generator)
    `{!GeneratorLaws G} (ds : gmap string (list Ex)) (train test : list Ex)
    (seed : Z) :
  (0 ≤ seed)%Z →
  ds !! "train" = Some train → length train = 100 →
  ds !! "test" = Some test → length test = 20 →
  ∃ out train' test',
    skrink_splits G ds [("test", 10%Z)] "train" seed = Ok out ∧
    out !! "train" = Some train' ∧ length train' = 110 ∧
    out !! "test" = Some test' ∧ length test' = 10.
Proof.
  intros Hseed Htrain Hlen Htest Hlen'.
  destruct (skrink_splits_shrunk_item G ds [("test", 10%Z)] "train" seed train
              ("test", 10%Z))
    as (out & dr & pre & post & Hrun & Hdr & Hout & Hkept); try done.
  { repeat constructor; simpl; [by eexists | lia]. }
  { by apply list_elem_of_singleton. }
  { apply (is_shrunk_true ds "test" 10 test Htest). lia. }
  destruct (skrink_splits_spec G ds [("test", 10%Z)] "train" seed train)
    as (draws & Hdraws & Hrun'); try done.
  { repeat constructor; simpl; [by eexists | lia]. }
  rewrite filter_cons_True, filter_nil in Hdraws
    by (apply (is_shrunk_true ds "test" 10 test Htest); lia).
  apply Forall2_cons_inv_l in Hdraws as (dr' & ? & Hdr' & ->%Forall2_nil_inv_l & ->).
  exists out, (train ++ dr_moved dr'), (dr_kept dr).
  split; [done|]. split.
  { rewrite Hrun in Hrun'. injection Hrun' as ->.
    rewrite lookup_insert_eq. csimpl. by rewrite app_nil_r. }
  pose proof (drawn_moved_length G _ _ _ Hdr') as Hm.
  pose proof (drawn_kept_length G _ _ _ Hdr) as Hk.
  destruct Hdr' as (_ & Hrows & _). simpl in *.
  assert (dr_rows dr' = test) as Hrows' by congruence.
  rewrite Hrows', Hlen' in Hm.
  split; [rewrite length_app; lia|].
  split; [by apply Hkept; [apply NoDup_singleton|]|]. lia.
Qed.

(** ** Missing split names *)

Section MissingNames.
Context {Ex : Type} (G : Generator) `{!GeneratorLaws G}.
Implicit Types (ds : gmap string (list Ex)).

(** With a non-negative target, an iteration can only fail on the lookup of
    its split. *)
Lemma shrink_body_Raise ds (st : loop_state G) (item : string * Z) e :
  (0 ≤ item.2)%Z →
  shrink_body G ds st item = Raise e →
  e = KeyError item.1 ∧ ds !! item.1 = None.
Proof.
  destruct item as [split size]. cbn [fst snd]. intros Hsize Hbody.
  destruct (ds !! split) as [d|] eqn:Hd.
  - destruct (decide (size < Z.of_nat (length d))%Z).
    + destruct (shrink_body_shrunk G ds st split size d Hd)
        as (dr & _ & _ & Hb); [lia|]. congruence.
    + rewrite (shrink_body_skip G ds st split size d Hd) in Hbody by lia.
      discriminate.
  - rewrite (shrink_body_missing G ds st split size Hd) in Hbody.
    by injection Hbody as <-.
Qed.

Lemma shrink_body_Ok ds (st st' : loop_state G) (item : string * Z) :
  shrink_body G ds st item = Ok st' →
  is_Some (ds !! item.1) ∧ (0 ≤ item.2)%Z.
Proof using Type.
  destruct item as [split size]. unfold shrink_body. cbn [fst snd].
  intros (d & Hd%getitem_Ok_inv & Hrest)%bind_Ok_inv.
  split; [by exists d|].
  destruct (decide (size < Z.of_nat (length d))%Z); [|lia].
  apply bind_Ok_inv in Hrest as (? & Hchoice & _). unfold choice in Hchoice.
  repeat case_decide; try discriminate. lia.
Qed.

Lemma shrink_loop_Raise ds (items : list (string * Z)) (st : loop_state G) e :
  Forall (λ it, (0 ≤ it.2)%Z) items →
  foldlM (shrink_body G ds) st items = Raise e →
  ∃ k, e = KeyError k ∧ k ∈ items.*1 ∧ ds !! k = None.
Proof.
  intros Hitems. revert st.
  induction Hitems as [|item items Hsize _ IH]; intros st; [done|].
  rewrite foldlM_cons.
  destruct (shrink_body G ds st item) as [st'|e'] eqn:Hbody.
  - rewrite bind_Ok. intros (k & -> & Hk & Hnone)%IH.
    exists k. csimpl. rewrite elem_of_cons. auto.
  - rewrite bind_Raise. intros [= ->].
    destruct (shrink_body_Raise ds st item e Hsize Hbody) as [-> Hnone].
    exists item.1. csimpl. rewrite elem_of_cons. auto.
Qed.

Lemma shrink_loop_Ok ds (items : list (string * Z)) (st st' : loop_state G) :
  foldlM (shrink_body G ds) st items = Ok st' →
  Forall (λ it, is_Some (ds !! it.1) ∧ (0 ≤ it.2)%Z) items.
Proof using Type.
  revert st. induction items as [|item items IH]; intros st; [done|].
  rewrite foldlM_cons.
  intros (st1 & Hbody%shrink_body_Ok & Hloop%IH)%bind_Ok_inv.
  by constructor.
Qed.

(** X2. The call returns a dataset exactly when the seed is not negative,
    every named split is in the dataset with a target that is not negative,
    and the growth split is in the dataset. *)
Lemma skrink_splits_returns_iff ds (split_sizes : list (string * Z))
    (grow_split : string) (seed : Z) :
  (∃ out, skrink_splits G ds split_sizes grow_split seed = Ok out) ↔
  (0 ≤ seed)%Z ∧
  Forall (λ it, is_Some (ds !! it.1) ∧ (0 ≤ it.2)%Z) split_sizes ∧
  is_Some (ds !! grow_split).
Proof.
  split.
  - intros [out Hrun]. unfold skrink_splits, default_rng in Hrun.
    destruct (decide (seed < 0)%Z); [discriminate|].
    rewrite bind_Ok in Hrun.
    apply bind_Ok_inv in Hrun as (st & Hloop%shrink_loop_Ok & Hrun).
    apply bind_Ok_inv in Hrun as (g & Hg%getitem_Ok_inv & _).
    split; [lia|]. split; [done|]. by exists g.
  - intros (Hseed & Hitems & [g Hg]).
    destruct (skrink_splits_spec G ds split_sizes grow_split seed g)
      as (draws & _ & Hrun); [done..|].
    eauto.
Qed.

End MissingNames.

(** C8, as the code has it.  When a split name of the target-size mapping, or
    the growth-split name, is not in the dataset, the call raises and returns
    no dataset; the exception is the lookup error of a missing name when the
    seed and the targets are not negative. *)
Theorem skrink_splits_missing_name {Ex : Type} (G : Generator)
    `{!GeneratorLaws G} (ds : gmap string (list Ex))
    (split_sizes : list (string * Z)) (grow_split : string) (seed : Z)
    (name : string) :
  name ∈ split_sizes.*1 ∨ name = grow_split →
  ds !! name = None →
  ∃ e,
    skrink_splits G ds split_sizes grow_split seed = Raise e ∧
    ((0 ≤ seed)%Z → Forall (λ it, (0 ≤ it.2)%Z) split_sizes →
     ∃ k, e = KeyError k ∧ (k ∈ split_sizes.*1 ∨ k = grow_split) ∧
          ds !! k = None).
Proof.
  intros Hname Hnone. unfold skrink_splits, default_rng.
  destruct (decide (seed < 0)%Z) as [Hneg|Hseed].
  { exists ValueError. split; [done|]. lia. }
  rewrite bind_Ok.
  destruct (foldlM _ _ split_sizes) as [st|e] eqn:Hloop.
  - rewrite bind_Ok.
    assert (ds !! grow_split = None) as Hgrow.
    { destruct Hname as [Hin| ->]; [|done].
      apply shrink_loop_Ok in Hloop. rewrite Forall_forall in Hloop.
      apply list_elem_of_fmap in Hin as (it & -> & Hit).
      destruct (Hloop it Hit) as [[d Hd] _]. congruence. }
    rewrite (getitem_None _ _ Hgrow), bind_Raise.
    exists (KeyError grow_split). split; [done|]. intros _ _.
    exists grow_split. auto.
  - rewrite bind_Raise. exists e. split; [done|]. intros _ Hsizes.
    destruct (shrink_loop_Raise G ds _ _ _ Hsizes Hloop) as (k & -> & Hk & Hd).
    exists k. auto.
Qed.

Lemma skrink_splits_missing_name_witness :
  ∃ e,
    skrink_splits descending_rng example_ds [("test", 2%Z); ("dev", 0%Z)]
      "train" 0 = Raise e ∧
    ((0 ≤ 0)%Z →
     Forall (λ it, (0 ≤ it.2)%Z) [("test", 2%Z); ("dev", 0%Z)] →
     ∃ k, e = KeyError k ∧
          (k ∈ [("test", 2%Z); ("dev", 0%Z)].*1 ∨ k = "train") ∧
          example_ds !! k = None).
Proof.
  apply (skrink_splits_missing_name descending_rng example_ds
           [("test", 2%Z); ("dev", 0%Z)] "train" 0 "dev").
  - left. csimpl. rewrite !elem_of_cons. auto.
  - reflexivity.
Defined.

(** C8 as stated fails when a split processed before the missing one has a
    negative target: dev is not in the dataset, and the call raises the value
    error of the generator, not a lookup error. *)
Lemma skrink_splits_missing_name_value_error :
  example_ds !! "dev" = None ∧
  skrink_splits descending_rng example_ds [("test", (-1)%Z); ("dev", 0%Z)]
    "train" 0 = Raise ValueError.
Proof. split; vm_compute; reflexivity. Qed.

(** C10. For every shrunk split, the rows moved to the growth split are the
    rows of the split at the indices that were not drawn, in ascending index
    order, so in their original relative order, and they are a block of the
    output growth split; the rows kept in the split are the rows at the drawn
    indices in the order of the draw; kept and moved rows together are the
    rows the split had.  The order of the draw need not be the original one:
    a generator that draws 3 before 2 leaves the test split as 13, 12, while
    10, 11 go to train in that order. *)
Theorem skrink_splits_order :
  (∀ (Ex : Type) (G : Generator) (_ : GeneratorLaws G)
     (ds : gmap string (list Ex)) (split_sizes : list (string * Z))
     (grow_split : string) (seed : Z) (g : list Ex) (item : string * Z),
     (0 ≤ seed)%Z →
     NoDup split_sizes.*1 →
     Forall (λ it, is_Some (ds !! it.1) ∧ (0 ≤ it.2)%Z) split_sizes →
     ds !! grow_split = Some g →
     item ∈ split_sizes → is_shrunk ds item →
     ∃ out idx kept mv pre post,
       skrink_splits G ds split_sizes grow_split seed = Ok out ∧
       shrinks G ds item idx kept mv ∧
       out !! grow_split = Some (g ++ pre ++ mv ++ post) ∧
       (item.1 ≠ grow_split → out !! item.1 = Some kept)) ∧
  (∃ out,
     skrink_splits descending_rng example_ds [("test", 2%Z)] "train" 0
     = Ok out ∧
     out !! "test" = Some [13; 12] ∧
     out !! "train" = Some [0; 1; 2; 10; 11]).
Proof.
  split.
  - intros Ex G HG ds split_sizes grow_split seed g item
      Hseed Hnd Hitems Hg Hin Hsh.
    destruct (skrink_splits_shrunk_item G ds split_sizes grow_split seed g item)
      as (out & dr & pre & post & Hrun & Hdr & Hout & Hkept); [done..|].
    exists out, (dr_idx dr), (dr_kept dr), (dr_moved dr), pre, post.
    split; [done|]. split; [by apply drawn_shrinks|]. split; [done|].
    by apply Hkept.
  - eexists. split; [vm_compute; reflexivity|].
    split; vm_compute; reflexivity.
Qed.

Lemma skrink_splits_order_witness :
  ∃ out idx kept mv pre post,
    skrink_splits descending_rng example_ds [("test", 2%Z)] "train" 0 = Ok out ∧
    shrinks descending_rng example_ds ("test", 2%Z) idx kept mv ∧
    out !! "train" = Some ([0; 1; 2] ++ pre ++ mv ++ post) ∧
    (("test", 2%Z).1 ≠ "train" → out !! ("test", 2%Z).1 = Some kept).
Proof.
  apply (proj1 skrink_splits_order nat descending_rng _ example_ds
           [("test", 2%Z)] "train" 0%Z [0; 1; 2] ("test", 2%Z)).
  - lia.
  - apply NoDup_singleton.
  - items_ok.
  - reflexivity.
  - apply list_elem_of_singleton. reflexivity.
  - vm_compute. exact I.
Defined.

(** ** [Preprocessor.__call__] *)

(** C9, as the code has it.  On a raw example with an audio field and a
    sentence, the preprocessor writes the feature vector and the token ids
    into the record it was given and returns that same record: no new record
    is made.  The other fields of the record and the other objects of the
    store keep their values. *)
Theorem Preprocessor_call_in_place {Array Feat Bundle : Type}
    (self : @Preprocessor Array Feat Bundle) (h : @heap Array Feat)
    (batch : nat) (r audio : gmap string (@value Array Feat))
    (arr : Array) (sr : Z) (sentence : string) (f : Feat) (fs : list Feat) :
  h !! batch = Some r →
  r !! "audio" = Some (VDict audio) →
  audio !! "array" = Some (VArray arr) →
  audio !! "sampling_rate" = Some (VInt sr) →
  fe_call (pp_feature_extractor self) arr sr = f :: fs →
  r !! "sentence" = Some (VStr sentence) →
  ∃ h' r',
    Preprocessor_call self batch h = (Ok batch, h') ∧
    h' !! batch = Some r' ∧
    r' !! "input_features" = Some (VFeat f) ∧
    r' !! "labels" = Some (VIds (tok_call (pp_tokenizer self) sentence)) ∧
    (∀ key, key ≠ "input_features" → key ≠ "labels" → r' !! key = r !! key) ∧
    (∀ obj, obj ≠ batch → h' !! obj = h !! obj).
Proof.
  intros Hh Haudio Harr Hsr Hfe Hsentence.
  exists (<[batch := <["labels" := VIds (tok_call (pp_tokenizer self) sentence)]>
                       (<["input_features" := VFeat f]> r)]> h),
         (<["labels" := VIds (tok_call (pp_tokenizer self) sentence)]>
            (<["input_features" := VFeat f]> r)).
  split.
  - unfold Preprocessor_call, mbind, M_bind, bindM, load, store, liftM, retM.
    unfold heap in *. rewrite Hh, (getitem_Some _ _ _ Haudio). simpl.
    rewrite (getitem_Some _ _ _ Harr), (getitem_Some _ _ _ Hsr). simpl.
    rewrite Hfe. simpl. rewrite Hh, lookup_insert_eq.
    rewrite (getitem_Some _ "sentence" (VStr sentence))
      by (by rewrite lookup_insert_ne).
    simpl. rewrite lookup_insert_eq. by rewrite insert_insert_eq.
  - unfold heap in *. split; [by rewrite lookup_insert_eq|].
    split; [by rewrite lookup_insert_ne, lookup_insert_eq|].
    split; [by rewrite lookup_insert_eq|]. split.
    + intros key Hk1 Hk2. by rewrite !lookup_insert_ne.
    + intros obj Hobj. by rewrite lookup_insert_ne.
Qed.

Lemma Preprocessor_call_in_place_witness :
  ∃ h' r',
    Preprocessor_call toy_preprocessor 0 example_heap = (Ok 0, h') ∧
    h' !! 0 = Some r' ∧
    r' !! "input_features" = Some (VFeat [1; 2]%Z) ∧
    r' !! "labels" = Some (VIds (tok_call toy_tokenizer "hi")) ∧
    (∀ key, key ≠ "input_features" → key ≠ "labels" →
            r' !! key = example_record !! key) ∧
    (∀ obj, obj ≠ 0 → h' !! obj = example_heap !! obj).
Proof.
  apply (Preprocessor_call_in_place toy_preprocessor example_heap 0
           example_record
           {[ "array" := VArray [1; 2]%Z; "sampling_rate" := VInt 16000 ]}
           [1; 2]%Z 16000%Z "hi" [1; 2]%Z []); reflexivity.
Defined.

(** C9 as stated fails: after the call the record at address 0, the one
    that was passed in, has a [labels] field it did not have before, and the
    call returns that address. *)
Lemma Preprocessor_call_mutates_input :
  example_heap !! 0 = Some example_record ∧
  example_record !! "labels" = None ∧
  ∃ h' r',
    Preprocessor_call toy_preprocessor 0 example_heap = (Ok 0, h') ∧
    h' !! 0 = Some r' ∧
    r' !! "labels" = Some (VIds [50258; 2; 50257]%Z).
Proof.
  split; [reflexivity|]. split; [reflexivity|].
  eexists _, _. split; [vm_compute; reflexivity|].
  split; vm_compute; reflexivity.
Qed.

(** ** The collator *)

Lemma mapM_result_fmap {A B C : Type} (f : B → result C) (g : A → B)
    (h : A → C) (l : list A) :
  (∀ x, x ∈ l → f (g x) = Ok (h x)) →
  mapM_result f (g <$> l) = Ok (h <$> l).
Proof.
  induction l as [|x l IH]; intros Hf; [done|]. csimpl.
  rewrite Hf by (apply elem_of_cons; auto). simpl.
  rewrite IH; [done|]. intros y Hy. apply Hf, elem_of_cons. auto.
Qed.

Lemma masked_row (s : list Z) (n : nat) (pad : Z) :
  zip_with (λ x (b : bool), if b then ignore_index else x)
    (s ++ replicate n pad)
    ((λ x, bool_decide (x ≠ 1%Z))
       <$> (replicate (length s) 1%Z ++ replicate n 0%Z))
  = s ++ replicate n ignore_index.
Proof.
  rewrite fmap_app, !fmap_replicate.
  rewrite zip_with_app by (by rewrite length_replicate).
  rewrite zip_with_replicate. f_equal.
  induction s as [|x s IH]; [done|]. simpl in *. by rewrite IH.
Qed.

(** Padding, then filling the positions the attention mask does not mark
    with 1 by the ignore value. *)
Lemma masked_fill_pad (seqs : list (list Z)) (pad : Z) :
  masked_fill
    ((λ s, s ++ replicate (batch_width seqs - length s) pad) <$> seqs)
    (tensor_ne
       ((λ s, replicate (length s) 1%Z
              ++ replicate (batch_width seqs - length s) 0%Z) <$> seqs) 1)
    ignore_index
  = padded_labels seqs.
Proof.
  unfold masked_fill, tensor_ne, padded_labels.
  rewrite <-list_fmap_compose, zip_with_fmap_l, zip_with_fmap_r, zip_with_diag.
  apply list_fmap_ext. intros _ s _. apply masked_row.
Qed.

Lemma padded_labels_lookup (seqs : list (list Z)) (i : nat) (row : list Z) :
  padded_labels seqs !! i = Some row ↔
  ∃ s, seqs !! i = Some s ∧
       row = s ++ replicate (batch_width seqs - length s) ignore_index.
Proof.
  unfold padded_labels. rewrite list_lookup_fmap_Some. naive_solver.
Qed.

Lemma length_le_batch_width (seqs : list (list Z)) (s : list Z) :
  s ∈ seqs → length s ≤ batch_width seqs.
Proof.
  intros Hs. apply max_list_elem_of_le. by apply list_elem_of_fmap_2.
Qed.

(** The first column of the label tensor, when it has a column. *)
Lemma column0_padded (seqs : list (list Z)) :
  0 < batch_width seqs →
  column0 (padded_labels seqs)
  = Ok ((λ s, default ignore_index (head s)) <$> seqs).
Proof.
  intros Hw. unfold column0, padded_labels.
  apply mapM_result_fmap. intros s Hs.
  destruct s as [|x s]; simpl; [|done].
  destruct (batch_width seqs) as [|w]; [lia|]. by rewrite Nat.sub_0_r.
Qed.

(** No sequence has a token: the label tensor has no column. *)
Lemma column0_no_column (seqs : list (list Z)) :
  seqs ≠ [] → batch_width seqs = 0 →
  column0 (padded_labels seqs) = Raise IndexError.
Proof.
  destruct seqs as [|s seqs]; [done|]. intros _ Hw.
  pose proof (length_le_batch_width (s :: seqs) s) as Hs.
  rewrite Hw in Hs. destruct s as [|x s];
    [|simpl in Hs; specialize (Hs ltac:(apply elem_of_cons; auto)); lia].
  unfold column0, padded_labels. csimpl. by rewrite Hw.
Qed.

Lemma all_eq_Forall (col : list Z) (c : Z) :
  all_eq col c ↔ Forall (λ x, x = c) col.
Proof.
  unfold all_eq. rewrite forallb_True.
  apply Forall_proper; [|done]. intros x. apply bool_decide_spec.
Qed.

(** The test of the collator on the first column, in terms of the label
    sequences. *)
Lemma all_eq_column0 (seqs : list (list Z)) (bos : Z) :
  bos ≠ ignore_index →
  all_eq ((λ s, default ignore_index (head s)) <$> seqs) bos
  ↔ Forall (begins_with bos) seqs.
Proof.
  intros Hbos. rewrite all_eq_Forall, Forall_fmap.
  apply Forall_proper; [|done]. intros s. unfold begins_with. simpl.
  destruct (head s) as [x|]; simpl; naive_solver.
Qed.

Lemma holds_seqs_nonempty {Array Feat : Type}
    (features : list (gmap string (@value Array Feat))) (feats : list Feat)
    (seqs : list (list Z)) :
  features ≠ [] → holds features feats seqs → seqs ≠ [].
Proof.
  intros Hne [_ Hseqs] ->. by apply Forall2_nil_inv_r in Hseqs.
Qed.

Section CollatorProofs.
Context {Array Feat Bundle : Type}.
Context (self : @DataCollatorSpeechSeq2SeqWithPadding Array Feat Bundle).
Implicit Types (features : list (gmap string (@value Array Feat))).
Implicit Types (feats : list Feat) (seqs : list (list Z)).

Lemma tokenizer_pad_ids seqs :
  tokenizer_pad (dc_tokenizer self) (@VIds Array Feat <$> seqs)
  = Ok {| input_ids :=
            (λ s, s ++ replicate (batch_width seqs - length s)
                         (pad_token_id (dc_tokenizer self))) <$> seqs;
          attention_mask :=
            (λ s, replicate (length s) 1%Z
                  ++ replicate (batch_width seqs - length s) 0%Z) <$> seqs |}.
Proof.
  unfold tokenizer_pad.
  rewrite (mapM_result_fmap as_ids VIds id) by done.
  by rewrite list_fmap_id.
Qed.

(** The call on a well-formed, non-empty batch: what is left to decide is
    the test on the first column of the padded label rows. *)
Lemma DataCollator_call_holds features feats seqs :
  features ≠ [] → holds features feats seqs →
  DataCollator_call self features
  = (col ← column0 (padded_labels seqs);
     Ok {| input_features := fe_pad (dc_feature_extractor self) feats;
           labels := if all_eq col (bos_token_id (dc_tokenizer self))
                     then drop_column0 (padded_labels seqs)
                     else padded_labels seqs |}).
Proof.
  intros Hne [Hfeats Hseqs]. unfold DataCollator_call.
  assert (mapM_result (λ feature, getitem feature "input_features") features
          = Ok (VFeat <$> feats)) as ->.
  { apply mapM_result_Ok, Forall2_fmap_r.
    eapply Forall2_impl; [exact Hfeats|]. intros feature f. apply getitem_Some. }
  rewrite bind_Ok.
  assert (feature_extractor_pad (dc_feature_extractor self) (VFeat <$> feats)
          = Ok (fe_pad (dc_feature_extractor self) feats)) as ->.
  { unfold feature_extractor_pad.
    rewrite (mapM_result_fmap as_feat VFeat id), list_fmap_id by done.
    destruct feats; [|done].
    apply Forall2_nil_inv_r in Hfeats. done. }
  rewrite bind_Ok.
  assert (mapM_result (λ feature, getitem feature "labels") features
          = Ok (VIds <$> seqs)) as ->.
  { apply mapM_result_Ok, Forall2_fmap_r.
    eapply Forall2_impl; [exact Hseqs|]. intros feature f. apply getitem_Some. }
  rewrite bind_Ok, tokenizer_pad_ids, bind_Ok. cbn [input_ids attention_mask].
  by rewrite masked_fill_pad.
Qed.

(** In the model, whose token ids are unbounded integers, the call returns a
    batch exactly when the batch is not empty, every example has a feature
    vector and a label sequence, and some label sequence has a token. *)
Lemma DataCollator_call_returns_iff features :
  (∃ out, DataCollator_call self features = Ok out) ↔
  features ≠ [] ∧
  ∃ feats seqs, holds features feats seqs ∧ 0 < batch_width seqs.
Proof.
  split.
  - intros [out Hrun]. pose proof Hrun as Hrun'. unfold DataCollator_call in Hrun.
    apply bind_Ok_inv in Hrun as (fvals & Hfvals%mapM_result_Ok & Hrun).
    apply bind_Ok_inv in Hrun as (b & Hpad & Hrun).
    apply bind_Ok_inv in Hrun as (lvals & Hlvals%mapM_result_Ok & Hrun).
    apply bind_Ok_inv in Hrun as (enc & Henc & _).
    unfold feature_extractor_pad in Hpad.
    assert (features ≠ []) as Hne.
    { intros ->. apply Forall2_nil_inv_l in Hfvals as ->. discriminate. }
    assert (∃ feats, mapM_result as_feat fvals = Ok feats) as [feats Hfeats].
    { destruct fvals; [discriminate|].
      apply bind_Ok_inv in Hpad as (feats & Hfeats & _). eauto. }
    apply mapM_result_Ok in Hfeats.
    apply bind_Ok_inv in Henc as (seqs & Hseqs%mapM_result_Ok & _).
    assert (holds features feats seqs) as Hholds.
    { split.
      - eapply Forall2_trans; [|exact Hfvals|exact Hfeats].
        intros feature v f Hv%getitem_Ok_inv Hf.
        destruct v; try discriminate. injection Hf as ->. done.
      - eapply Forall2_trans; [|exact Hlvals|exact Hseqs].
        intros feature v ids Hv%getitem_Ok_inv Hids.
        destruct v; try discriminate. injection Hids as ->. done. }
    split; [done|]. exists feats, seqs. split; [done|].
    rewrite (DataCollator_call_holds features feats seqs Hne Hholds) in Hrun'.
    destruct (decide (0 < batch_width seqs)) as [|Hw]; [done|].
    rewrite column0_no_column in Hrun'; [discriminate| |lia].
    by eapply holds_seqs_nonempty.
  - intros (Hne & feats & seqs & Hholds & Hw).
    rewrite (DataCollator_call_holds features feats seqs Hne Hholds).
    rewrite (column0_padded seqs Hw), bind_Ok. eauto.
Qed.

(** X14. The call returns only on a batch of well-formed examples (each with
    a feature vector under "input_features" and a token sequence under
    "labels"); and on a batch of well-formed examples whose token ids fit the
    64-bit label tensor, it returns exactly when the batch is not empty and
    some label sequence has a token. *)
Theorem DataCollator_call_returns_int64 features :
  ((∃ out, DataCollator_call self features = Ok out) →
   ∃ feats seqs, holds features feats seqs) ∧
  (∀ feats seqs,
     holds features feats seqs → Forall (Forall int64) seqs →
     ((∃ out, DataCollator_call self features = Ok out) ↔
      features ≠ [] ∧ 0 < batch_width seqs)).
Proof.
  split.
  - intros (_ & feats & seqs & Hholds & _)%DataCollator_call_returns_iff.
    eauto.
  - intros feats seqs Hholds _. split.
    + intros [out Hrun].
      assert (features ≠ []) as Hne.
      { apply DataCollator_call_returns_iff. eauto. }
      split; [done|].
      rewrite (DataCollator_call_holds features feats seqs Hne Hholds) in Hrun.
      destruct (decide (0 < batch_width seqs)) as [|Hw]; [done|].
      rewrite column0_no_column in Hrun; [discriminate| |lia].
      by eapply holds_seqs_nonempty.
    + intros [Hne Hw]. apply DataCollator_call_returns_iff. eauto.
Qed.

End CollatorProofs.

Lemma DataCollator_call_returns_int64_witness :
  (∃ out, DataCollator_call toy_collator
            [example_feature [50258; 1; 2]%Z; example_feature []] = Ok out) ↔
  [example_feature [50258; 1; 2]%Z; example_feature []] ≠ [] ∧
  0 < batch_width [[50258; 1; 2]; []]%Z.
Proof.
  refine (proj2 (DataCollator_call_returns_int64 toy_collator
                   [example_feature [50258; 1; 2]%Z; example_feature []])
            [[1]; [1]]%Z [[50258; 1; 2]; []]%Z _ _).
  - split; repeat constructor.
  - repeat constructor; unfold int64; lia.
Defined.

#[global] Instance toy_tokenizer_laws : TokenizerLaws toy_tokenizer.
Proof. split. simpl. lia. Qed.

(** C4. On a non-empty batch of well-formed examples whose token ids fit the
    64-bit label tensor: when every label sequence begins with the
    tokenizer's beginning-of-sequence id, the collator returns the label rows
    (each sequence followed by -100 up to the longest) with the first element
    of every row removed; when some sequence does not begin with it, no row
    is stripped: the collator returns the rows whole (and raises when the
    rows have no column at all, all sequences being empty).  Either all rows
    lose their first token or none does. *)
Theorem DataCollator_call_bos {Array Feat Bundle : Type}
    (self : @DataCollatorSpeechSeq2SeqWithPadding Array Feat Bundle)
    `{!TokenizerLaws (dc_tokenizer self)}
    (features : list (gmap string (@value Array Feat))) (feats : list Feat)
    (seqs : list (list Z)) :
  features ≠ [] → holds features feats seqs →
  Forall (Forall int64) seqs →
  (Forall (begins_with (bos_token_id (dc_tokenizer self))) seqs →
   DataCollator_call self features
   = Ok {| input_features := fe_pad (dc_feature_extractor self) feats;
           labels :=
             (λ s, drop 1 (s ++ replicate (batch_width seqs - length s)
                                  (-100)%Z)) <$> seqs |}) ∧
  (¬ Forall (begins_with (bos_token_id (dc_tokenizer self))) seqs →
   DataCollator_call self features
   = if decide (0 < batch_width seqs)
     then Ok {| input_features := fe_pad (dc_feature_extractor self) feats;
                labels :=
                  (λ s, s ++ replicate (batch_width seqs - length s)
                               (-100)%Z) <$> seqs |}
     else Raise IndexError).
Proof.
  intros Hne Hholds _.
  pose proof (holds_seqs_nonempty _ _ _ Hne Hholds) as Hseqs.
  rewrite (DataCollator_call_holds self features feats seqs Hne Hholds).
  assert (bos_token_id (dc_tokenizer self) ≠ ignore_index) as Hbos.
  { pose proof (bos_token_id_nonneg (tok := dc_tokenizer self)).
    unfold ignore_index. lia. }
  split.
  - intros Hall.
    assert (0 < batch_width seqs) as Hw.
    { destruct seqs as [|s seqs']; [done|].
      apply Forall_cons in Hall as [Hs _].
      pose proof (length_le_batch_width (s :: seqs') s) as Hle.
      specialize (Hle ltac:(apply elem_of_cons; auto)).
      destruct s; [discriminate Hs|]. simpl in Hle. lia. }
    rewrite (column0_padded seqs Hw), bind_Ok.
    apply (all_eq_column0 seqs _ Hbos), Is_true_true in Hall.
    rewrite Hall. unfold drop_column0, padded_labels.
    by rewrite <-list_fmap_compose.
  - intros Hsome. case_decide as Hw.
    + rewrite (column0_padded seqs Hw), bind_Ok.
      destruct (all_eq _ _) eqn:Hall; [|done].
      apply Is_true_true, (all_eq_column0 seqs _ Hbos) in Hall. done.
    + rewrite (column0_no_column seqs Hseqs) by lia. done.
Qed.

Lemma DataCollator_call_bos_witness :
  (Forall (begins_with 50258%Z) [[50258; 1; 2]; [50258; 1]]%Z →
   DataCollator_call toy_collator
     [example_feature [50258; 1; 2]%Z; example_feature [50258; 1]%Z]
   = Ok {| input_features := [[1]; [1]]%Z;
           labels :=
             (λ s, drop 1 (s ++ replicate
                                  (batch_width [[50258; 1; 2]; [50258; 1]]%Z
                                   - length s) (-100)%Z))
               <$> [[50258; 1; 2]; [50258; 1]]%Z |}) ∧
  (¬ Forall (begins_with 50258%Z) [[50258; 1; 2]; [50258; 1]]%Z →
   DataCollator_call toy_collator
     [example_feature [50258; 1; 2]%Z; example_feature [50258; 1]%Z]
   = if decide (0 < batch_width [[50258; 1; 2]; [50258; 1]]%Z)
     then Ok {| input_features := [[1]; [1]]%Z;
                labels :=
                  (λ s, s ++ replicate
                               (batch_width [[50258; 1; 2]; [50258; 1]]%Z
                                - length s) (-100)%Z)
                    <$> [[50258; 1; 2]; [50258; 1]]%Z |}
     else Raise IndexError).
Proof.
  apply (DataCollator_call_bos toy_collator
           [example_feature [50258; 1; 2]%Z; example_feature [50258; 1]%Z]
           [[1]; [1]]%Z [[50258; 1; 2]; [50258; 1]]%Z).
  - discriminate.
  - split; repeat constructor.
  - repeat constructor; unfold int64; lia.
Defined.

(** The two cases of C4, run: three sequences that all begin with 50258, and
    three of which only two do. *)
Lemma run_bos_scenarios :
  labels <$> DataCollator_call toy_collator
    [example_feature [50258; 1; 2]%Z; example_feature [50258; 3]%Z;
     example_feature [50258; 4; 5]%Z]
  = Ok [[1; 2]; [3; -100]; [4; 5]]%Z ∧
  labels <$> DataCollator_call toy_collator
    [example_feature [50258; 1; 2]%Z; example_feature [50258; 3]%Z;
     example_feature [7; 4; 5]%Z]
  = Ok [[50258; 1; 2]; [50258; 3; -100]; [7; 4; 5]]%Z.
Proof. split; vm_compute; reflexivity. Qed.

(** C5. On a non-empty batch of well-formed examples whose token ids fit the
    64-bit label tensor and whose label tensor has a column, the collator
    returns.  With [off] the number of leading columns it removed (1 when
    every sequence begins with the beginning-of-sequence id, 0 otherwise),
    the output has one label row per example, of the width of the batch less
    [off], and position [(i, j)] of the output stands for position
    [(i, off + j)] of the padded batch: the attention mask there is 1 exactly
    on the tokens of the sequence; where it is not 1 the label is -100, and
    where it is 1 the label is the token of the unpadded sequence at that
    position. *)
Theorem DataCollator_call_ignore_mask {Array Feat Bundle : Type}
    (self : @DataCollatorSpeechSeq2SeqWithPadding Array Feat Bundle)
    `{!TokenizerLaws (dc_tokenizer self)}
    (features : list (gmap string (@value Array Feat))) (feats : list Feat)
    (seqs : list (list Z)) :
  features ≠ [] → holds features feats seqs →
  Forall (Forall int64) seqs → 0 < batch_width seqs →
  ∃ out enc (off : nat),
    DataCollator_call self features = Ok out ∧
    tokenizer_pad (dc_tokenizer self) (@VIds Array Feat <$> seqs) = Ok enc ∧
    (Forall (begins_with (bos_token_id (dc_tokenizer self))) seqs → off = 1) ∧
    (¬ Forall (begins_with (bos_token_id (dc_tokenizer self))) seqs →
     off = 0) ∧
    length (labels out) = length seqs ∧
    length (attention_mask enc) = length seqs ∧
    ∀ i s,
      seqs !! i = Some s →
      ∃ row mrow,
        labels out !! i = Some row ∧
        attention_mask enc !! i = Some mrow ∧
        length row = batch_width seqs - off ∧
        length mrow = batch_width seqs ∧
        ∀ j, j < batch_width seqs - off →
             ∃ v m,
               row !! j = Some v ∧
               mrow !! (off + j) = Some m ∧
               (m = 1%Z ↔ off + j < length s) ∧
               (m ≠ 1%Z → v = (-100)%Z) ∧
               (m = 1%Z → s !! (off + j) = Some v).
Proof.
  intros Hne Hholds _ Hw.
  rewrite (DataCollator_call_holds self features feats seqs Hne Hholds).
  rewrite (column0_padded seqs Hw), bind_Ok, tokenizer_pad_ids.
  assert (bos_token_id (dc_tokenizer self) ≠ ignore_index) as Hbos.
  { pose proof (bos_token_id_nonneg (tok := dc_tokenizer self)).
    unfold ignore_index. lia. }
  set (col := (λ s, default ignore_index (head s)) <$> seqs).
  set (off := if all_eq col (bos_token_id (dc_tokenizer self)) then 1 else 0).
  eexists _, _, off. split; [reflexivity|]. split; [reflexivity|].
  cbn [labels input_ids attention_mask].
  assert ((if all_eq col (bos_token_id (dc_tokenizer self))
           then drop_column0 (padded_labels seqs) else padded_labels seqs)
          = drop off <$> padded_labels seqs) as ->.
  { unfold off, drop_column0. destruct (all_eq _ _); [done|].
    symmetry. apply list_fmap_id. }
  assert (off ≤ 1) as Hoff by (unfold off; destruct (all_eq _ _); lia).
  split.
  { intros Hall%(all_eq_column0 seqs _ Hbos). fold col in Hall.
    unfold off. by destruct (all_eq _ _). }
  split.
  { intros Hsome. unfold off. destruct (all_eq _ _) eqn:Hall; [|done].
    destruct Hsome. apply (all_eq_column0 seqs _ Hbos). fold col.
    by rewrite Hall. }
  split; [unfold padded_labels; by rewrite !length_fmap|].
  split; [by rewrite length_fmap|].
  intros i s Hs.
  assert (s ∈ seqs) as Hin by (by eapply list_elem_of_lookup_2).
  pose proof (length_le_batch_width seqs s Hin) as Hlen.
  exists (drop off (s ++ replicate (batch_width seqs - length s) ignore_index)),
    (replicate (length s) 1%Z ++ replicate (batch_width seqs - length s) 0%Z).
  split.
  { unfold padded_labels. by rewrite !list_lookup_fmap, Hs. }
  split; [by rewrite list_lookup_fmap, Hs|].
  split; [rewrite length_drop, length_app, length_replicate; lia|].
  split; [rewrite length_app, !length_replicate; lia|].
  intros j Hj. rewrite lookup_drop.
  destruct (decide (off + j < length s)) as [Hlt|Hge].
  - destruct (lookup_lt_is_Some_2 s (off + j) Hlt) as [v Hv].
    exists v, 1%Z. rewrite !lookup_app_l by (by rewrite ?length_replicate).
    split; [done|]. split; [by apply lookup_replicate_2|].
    split; [done|]. split; [done|]. done.
  - exists (-100)%Z, 0%Z.
    rewrite !lookup_app_r by (rewrite ?length_replicate; lia).
    rewrite length_replicate.
    split; [apply lookup_replicate_2; lia|].
    split; [apply lookup_replicate_2; lia|].
    split; [split; [discriminate|lia]|]. split; [done|discriminate].
Qed.

Lemma DataCollator_call_ignore_mask_witness :
  ∃ out enc (off : nat),
    DataCollator_call toy_collator
      [example_feature [50258; 1; 2]%Z; example_feature [50258; 1]%Z]
    = Ok out ∧
    tokenizer_pad toy_tokenizer
      (@VIds (list Z) (list Z) <$> [[50258; 1; 2]; [50258; 1]]%Z) = Ok enc ∧
    (Forall (begins_with 50258%Z) [[50258; 1; 2]; [50258; 1]]%Z → off = 1) ∧
    (¬ Forall (begins_with 50258%Z) [[50258; 1; 2]; [50258; 1]]%Z → off = 0) ∧
    length (labels out) = length [[50258; 1; 2]; [50258; 1]]%Z ∧
    length (attention_mask enc) = length [[50258; 1; 2]; [50258; 1]]%Z ∧
    ∀ i s,
      [[50258; 1; 2]; [50258; 1]]%Z !! i = Some s →
      ∃ row mrow,
        labels out !! i = Some row ∧
        attention_mask enc !! i = Some mrow ∧
        length row = batch_width [[50258; 1; 2]; [50258; 1]]%Z - off ∧
        length mrow = batch_width [[50258; 1; 2]; [50258; 1]]%Z ∧
        ∀ j, j < batch_width [[50258; 1; 2]; [50258; 1]]%Z - off →
             ∃ v m,
               row !! j = Some v ∧
               mrow !! (off + j) = Some m ∧
               (m = 1%Z ↔ off + j < length s) ∧
               (m ≠ 1%Z → v = (-100)%Z) ∧
               (m = 1%Z → s !! (off + j) = Some v).
Proof.
  apply (DataCollator_call_ignore_mask toy_collator
           [example_feature [50258; 1; 2]%Z; example_feature [50258; 1]%Z]
           [[1]; [1]]%Z [[50258; 1; 2]; [50258; 1]]%Z).
  - discriminate.
  - split; repeat constructor.
  - repeat constructor; unfold int64; lia.
  - vm_compute. lia.
Defined.

(** * Further properties *)

(** ** [skrink_splits]: which splits come out, and what they hold *)


(** X1. The splits of the output are the growth split and the named splits
    that were shrunk, and no other: a split of the dataset that the mapping
    does not name, and a named split at or below its target, is not in the
    output unless it is the growth split. *)
Theorem skrink_splits_output_names {Ex : Type} (G : Generator)
    `{!GeneratorLaws G} (ds : gmap string (list Ex))
    (split_sizes : list (string * Z)) (grow_split : string) (seed : Z) :
  (0 ≤ seed)%Z →
  Forall (λ it, is_Some (ds !! it.1) ∧ (0 ≤ it.2)%Z) split_sizes →
  is_Some (ds !! grow_split) →
  ∃ out,
    skrink_splits G ds split_sizes grow_split seed = Ok out ∧
    ∀ k, is_Some (out !! k) ↔
         k = grow_split ∨
         ∃ size, (k, size) ∈ split_sizes ∧ is_shrunk ds (k, size).
Proof.
  intros Hseed Hitems [g Hg].
  destruct (skrink_splits_spec G ds split_sizes grow_split seed g)
    as (draws & Hdraws & Hrun); [done..|].
  eexists. split; [exact Hrun|]. intros k.
  assert (k ∈ dr_split <$> draws ↔
          ∃ size, (k, size) ∈ split_sizes ∧ is_shrunk ds (k, size)) as Hnames.
  { rewrite (drawn_splits G _ _ _ Hdraws), list_elem_of_fmap. split.
    - intros ([k' size] & -> & [Hsh Hin]%list_elem_of_filter). eauto.
    - intros (size & Hin & Hsh). exists (k, size).
      split; [done|]. by apply list_elem_of_filter. }
  destruct (decide (k = grow_split)) as [->|Hne].
  - rewrite lookup_insert_eq. split; [auto|by eauto].
  - rewrite lookup_insert_ne by done.
    rewrite foldl_insert_is_Some, lookup_empty, Hnames.
    split; [intros [[? [=]]|?]; auto|]. intros [?|?]; [done|auto].
Qed.

Lemma skrink_splits_output_names_witness :
  ∃ out,
    skrink_splits descending_rng example_ds [("test", 2%Z)] "train" 0 = Ok out ∧
    ∀ k, is_Some (out !! k) ↔
         k = "train" ∨
         ∃ size, (k, size) ∈ [("test", 2%Z)] ∧ is_shrunk example_ds (k, size).
Proof.
  apply (skrink_splits_output_names descending_rng).
  - lia.
  - items_ok.
  - eexists; vm_compute; reflexivity.
Defined.

Lemma skrink_splits_returns_iff_witness :
  (∃ out,
     skrink_splits descending_rng example_ds [("test", 2%Z)] "train" 0
     = Ok out) ↔
  (0 ≤ 0)%Z ∧
  Forall (λ it, is_Some (example_ds !! it.1) ∧ (0 ≤ it.2)%Z)
    [("test", 2%Z)] ∧
  is_Some (example_ds !! "train").
Proof. apply (skrink_splits_returns_iff descending_rng). Defined.

(** X3. Shrinking a split loses and repeats no example: the rows the split
    keeps in the output and the block of its rows that sits in the output
    growth split are, together, a rearrangement of the rows the split had. *)
Theorem skrink_splits_partition {Ex : Type} (G : Generator)
    `{!GeneratorLaws G} (ds : gmap string (list Ex))
    (split_sizes : list (string * Z)) (grow_split : string) (seed : Z)
    (g d : list Ex) (split : string) (size : Z) :
  (0 ≤ seed)%Z →
  NoDup split_sizes.*1 →
  Forall (λ it, is_Some (ds !! it.1) ∧ (0 ≤ it.2)%Z) split_sizes →
  ds !! grow_split = Some g →
  (split, size) ∈ split_sizes → split ≠ grow_split →
  ds !! split = Some d → (size < Z.of_nat (length d))%Z →
  ∃ out kept mv pre post,
    skrink_splits G ds split_sizes grow_split seed = Ok out ∧
    out !! split = Some kept ∧
    out !! grow_split = Some (g ++ pre ++ mv ++ post) ∧
    kept ++ mv ≡ₚ d.
Proof.
  intros Hseed Hnd Hitems Hg Hin Hne Hd Hsize.
  destruct (skrink_splits_shrunk_item G ds split_sizes grow_split seed g
              (split, size))
    as (out & dr & pre & post & Hrun & Hdr & Hout & Hkept); [done..| |].
  { by apply (is_shrunk_true ds split size d). }
  exists out, (dr_kept dr), (dr_moved dr), pre, post.
  split; [done|]. split; [by apply Hkept|]. split; [done|].
  rewrite (drawn_partition G _ _ _ Hdr).
  destruct Hdr as (_ & Hrows & _). simpl in Hrows.
  by replace (dr_rows dr) with d by congruence.
Qed.

Lemma skrink_splits_partition_witness :
  ∃ out kept mv pre post,
    skrink_splits descending_rng example_ds [("test", 2%Z)] "train" 0 = Ok out ∧
    out !! "test" = Some kept ∧
    out !! "train" = Some ([0; 1; 2] ++ pre ++ mv ++ post) ∧
    kept ++ mv ≡ₚ [10; 11; 12; 13].
Proof.
  apply (skrink_splits_partition descending_rng example_ds
           [("test", 2%Z)] "train" 0%Z [0; 1; 2] [10; 11; 12; 13] "test" 2%Z).
  - lia.
  - apply NoDup_singleton.
  - items_ok.
  - reflexivity.
  - apply list_elem_of_singleton. reflexivity.
  - discriminate.
  - reflexivity.
  - simpl. lia.
Defined.

(** X4. The output growth split has the size of the input growth split plus,
    for every shrunk item of the mapping, the size of its split minus its
    target. *)
Theorem skrink_splits_growth_length {Ex : Type} (G : Generator)
    `{!GeneratorLaws G} (ds : gmap string (list Ex))
    (split_sizes : list (string * Z)) (grow_split : string) (seed : Z)
    (g : list Ex) :
  (0 ≤ seed)%Z →
  Forall (λ it, is_Some (ds !! it.1) ∧ (0 ≤ it.2)%Z) split_sizes →
  ds !! grow_split = Some g →
  ∃ out grown,
    skrink_splits G ds split_sizes grow_split seed = Ok out ∧
    out !! grow_split = Some grown ∧
    length grown
    = length g
      + sum_list ((λ it, length (default [] (ds !! it.1)) - Z.to_nat it.2)
                    <$> filter (λ it, is_shrunk ds it) split_sizes).
Proof.
  intros Hseed Hitems Hg.
  destruct (skrink_splits_spec G ds split_sizes grow_split seed g)
    as (draws & Hdraws & Hrun); [done..|].
  eexists _, _. split; [exact Hrun|]. split; [apply lookup_insert_eq|].
  by rewrite length_app, length_concat_fmap, (sum_drawn_moved G _ _ _ Hdraws).
Qed.

Lemma skrink_splits_growth_length_witness :
  ∃ out grown,
    skrink_splits descending_rng example_ds [("test", 1%Z)] "train" 0 = Ok out ∧
    out !! "train" = Some grown ∧
    length grown
    = length [0; 1; 2]
      + sum_list ((λ it, length (default [] (example_ds !! it.1))
                         - Z.to_nat it.2)
                    <$> filter (λ it, is_shrunk example_ds it)
                          [("test", 1%Z)]).
Proof.
  apply (skrink_splits_growth_length descending_rng).
  - lia.
  - items_ok.
  - reflexivity.
Defined.

Lemma filter_all {A : Type} (P : A → Prop) `{!∀ x, Decision (P x)}
    (l : list A) :
  Forall P l → filter P l = l.
Proof.
  induction 1 as [|x l Hx _ IH]; [done|].
  by rewrite filter_cons_True, IH.
Qed.

(** X5. An entry of the mapping whose split is at or below its target has no
    effect at all: it leaves no output entry and draws nothing from the
    generator, so the call gives the same outcome with the entry and
    without it, wherever the entry stands in the mapping. *)
Theorem skrink_splits_skip_entry {Ex : Type} (G : Generator)
    (ds : gmap string (list Ex)) (before after : list (string * Z))
    (grow_split : string) (seed : Z) (split : string) (size : Z)
    (d : list Ex) :
  ds !! split = Some d → (Z.of_nat (length d) ≤ size)%Z →
  skrink_splits G ds (before ++ (split, size) :: after) grow_split seed
  = skrink_splits G ds (before ++ after) grow_split seed.
Proof.
  intros Hd Hsize. unfold skrink_splits.
  destruct (default_rng G seed) as [rng0|e]; [|done].
  rewrite !bind_Ok, !foldlM_app.
  destruct (foldlM (shrink_body G ds) _ before) as [st|e]; [|done].
  rewrite !bind_Ok, foldlM_cons.
  by rewrite (shrink_body_skip G ds st split size d Hd Hsize), bind_Ok.
Qed.

Lemma skrink_splits_skip_entry_witness :
  skrink_splits descending_rng example_ds
    ([("test", 2%Z)] ++ ("train", 3%Z) :: []) "train" 0
  = skrink_splits descending_rng example_ds ([("test", 2%Z)] ++ []) "train" 0.
Proof.
  apply (skrink_splits_skip_entry descending_rng example_ds
           [("test", 2%Z)] [] "train" 0%Z "train" 3%Z [0; 1; 2]).
  - reflexivity.
  - simpl. lia.
Defined.

(** X6. With target 0, a non-empty split other than the growth split comes
    out empty, and all its rows, in their original order, are a block of the
    output growth split. *)
Theorem skrink_splits_target_zero {Ex : Type} (G : Generator)
    `{!GeneratorLaws G} (ds : gmap string (list Ex))
    (split_sizes : list (string * Z)) (grow_split : string) (seed : Z)
    (g d : list Ex) (split : string) :
  (0 ≤ seed)%Z →
  NoDup split_sizes.*1 →
  Forall (λ it, is_Some (ds !! it.1) ∧ (0 ≤ it.2)%Z) split_sizes →
  ds !! grow_split = Some g →
  (split, 0%Z) ∈ split_sizes → split ≠ grow_split →
  ds !! split = Some d → d ≠ [] →
  ∃ out pre post,
    skrink_splits G ds split_sizes grow_split seed = Ok out ∧
    out !! split = Some [] ∧
    out !! grow_split = Some (g ++ pre ++ d ++ post).
Proof.
  intros Hseed Hnd Hitems Hg Hin Hne Hd Hnil.
  destruct (skrink_splits_shrunk_item G ds split_sizes grow_split seed g
              (split, 0%Z))
    as (out & dr & pre & post & Hrun & Hdr & Hout & Hkept); [done..| |].
  { apply (is_shrunk_true ds split 0 d Hd). destruct d; [done|simpl; lia]. }
  destruct (drawn_idx G _ _ _ Hdr) as (Hlen & _).
  pose proof Hdr as (_ & Hrows & _ & _ & Hk%select_Ok & Hm%select_Ok).
  simpl in Hrows, Hlen.
  assert (dr_rows dr = d) as Hrows' by congruence.
  apply nil_length_inv in Hlen. rewrite Hlen in Hk, Hm.
  apply Forall2_nil_inv_l in Hk.
  assert (dr_moved dr = d) as Hmoved.
  { rewrite Hrows' in Hm. eapply rows_at_unique; [exact Hm|].
    rewrite setdiff1d_arange, filter_all; [apply rows_at_all|].
    apply Forall_forall. intros i _. apply not_elem_of_nil. }
  exists out, pre, post. split; [done|]. split.
  - rewrite <-Hk. by apply Hkept.
  - by rewrite <-Hmoved.
Qed.

Lemma skrink_splits_target_zero_witness :
  ∃ out pre post,
    skrink_splits descending_rng example_ds [("test", 0%Z)] "train" 0 = Ok out ∧
    out !! "test" = Some [] ∧
    out !! "train" = Some ([0; 1; 2] ++ pre ++ [10; 11; 12; 13] ++ post).
Proof.
  apply (skrink_splits_target_zero descending_rng example_ds
           [("test", 0%Z)] "train" 0%Z [0; 1; 2] [10; 11; 12; 13] "test").
  - lia.
  - apply NoDup_singleton.
  - items_ok.
  - reflexivity.
  - apply list_elem_of_singleton. reflexivity.
  - discriminate.
  - reflexivity.
  - discriminate.
Defined.



(** ** [Preprocessor.__call__]: when it returns, and what a failure leaves *)

Section PreprocessorFurther.
Context {Array Feat Bundle : Type}.
Context (self : @Preprocessor Array Feat Bundle).
Implicit Types (h : @heap Array Feat) (r : gmap string (@value Array Feat)).

Lemma bindM_Ok_inv {A B : Type} (m : @M Array Feat A)
    (k : A → @M Array Feat B) h (b : B) h' :
  bindM m k h = (Ok b, h') →
  ∃ a h1, m h = (Ok a, h1) ∧ k a h1 = (Ok b, h').
Proof.
  unfold bindM. destruct (m h) as [[a|e] h1]; [eauto|].
  discriminate.
Qed.

Lemma bindM_Raise_inv {A B : Type} (m : @M Array Feat A)
    (k : A → @M Array Feat B) h (e : error) h' :
  bindM m k h = (Raise e, h') →
  m h = (Raise e, h') ∨ ∃ a h1, m h = (Ok a, h1) ∧ k a h1 = (Raise e, h').
Proof.
  unfold bindM. destruct (m h) as [[a|e'] h1]; [eauto|].
  intros [= -> ->]. auto.
Qed.

Lemma load_inv (obj : nat) (key : string) h (x : result value) h' :
  load obj key h = (x, h') →
  h' = h ∧ (∀ v, x = Ok v → ∃ r, h !! obj = Some r ∧ r !! key = Some v).
Proof.
  unfold load. destruct (h !! obj) as [r|] eqn:Hr; intros [= <- <-].
  - split; [done|]. intros v Hv%getitem_Ok_inv. eauto.
  - split; [done|]. discriminate.
Qed.

Lemma liftM_inv {A : Type} (x y : result A) h h' :
  liftM x h = (y, h') → h' = h ∧ x = y.
Proof. by intros [= <- <-]. Qed.

Lemma store_inv (obj : nat) (key : string) (v : value) h
    (x : result ()) h' :
  store obj key v h = (x, h') →
  (x = Ok () ∧ ∃ r, h !! obj = Some r ∧ h' = <[obj := <[key := v]> r]> h) ∨
  (x = Raise TypeError ∧ h' = h).
Proof.
  unfold store. destruct (h !! obj) as [r|] eqn:Hr; intros [= <- <-]; eauto.
Qed.

(** The call on a raw example that has all it needs: the store after it. *)
Lemma Preprocessor_call_eq h (batch : nat) r (audio : gmap string value)
    (arr : Array) (sr : Z) (sentence : string) (f : Feat) (fs : list Feat) :
  h !! batch = Some r →
  r !! "audio" = Some (VDict audio) →
  audio !! "array" = Some (VArray arr) →
  audio !! "sampling_rate" = Some (VInt sr) →
  fe_call (pp_feature_extractor self) arr sr = f :: fs →
  r !! "sentence" = Some (VStr sentence) →
  Preprocessor_call self batch h
  = (Ok batch,
     <[batch := <["labels" := VIds (tok_call (pp_tokenizer self) sentence)]>
                  (<["input_features" := VFeat f]> r)]> h).
Proof.
  intros Hh Haudio Harr Hsr Hfe Hsentence.
  unfold Preprocessor_call, mbind, M_bind, bindM, load, store, liftM, retM.
  unfold heap in *. rewrite Hh, (getitem_Some _ _ _ Haudio). simpl.
  rewrite (getitem_Some _ _ _ Harr), (getitem_Some _ _ _ Hsr). simpl.
  rewrite Hfe. simpl. rewrite Hh, lookup_insert_eq.
  rewrite (getitem_Some _ "sentence" (VStr sentence))
    by (by rewrite lookup_insert_ne).
  simpl. rewrite lookup_insert_eq. by rewrite insert_insert_eq.
Qed.

Lemma as_dict_Ok (v : @value Array Feat) d : as_dict v = Ok d → v = VDict d.
Proof. destruct v; intros [=]; by subst. Qed.
Lemma as_array_Ok (v : @value Array Feat) a : as_array v = Ok a → v = VArray a.
Proof. destruct v; intros [=]; by subst. Qed.
Lemma as_int_Ok (v : @value Array Feat) z : as_int v = Ok z → v = VInt z.
Proof. destruct v; intros [=]; by subst. Qed.
Lemma as_str_Ok (v : @value Array Feat) s : as_str v = Ok s → v = VStr s.
Proof. destruct v; intros [=]; by subst. Qed.

(** What a returning call found in the record it was given. *)
Lemma Preprocessor_call_Ok_inv h (batch b : nat) h' :
  Preprocessor_call self batch h = (Ok b, h') →
  ∃ r audio arr sr f fs sentence,
    h !! batch = Some r ∧
    r !! "audio" = Some (VDict audio) ∧
    audio !! "array" = Some (VArray arr) ∧
    audio !! "sampling_rate" = Some (VInt sr) ∧
    fe_call (pp_feature_extractor self) arr sr = f :: fs ∧
    r !! "sentence" = Some (VStr sentence).
Proof.
  unfold Preprocessor_call, mbind, M_bind. intros Hrun.
  apply bindM_Ok_inv in Hrun as (audio_v & h1 & Hload & Hrun).
  apply load_inv in Hload as [-> Hload].
  destruct (Hload _ eq_refl) as (r & Hr & Haudio). clear Hload.
  apply bindM_Ok_inv in Hrun as (audio & h1 & [-> Hd]%liftM_inv & Hrun).
  apply as_dict_Ok in Hd as ->.
  apply bindM_Ok_inv in Hrun as (arr & h1 & [-> Harr]%liftM_inv & Hrun).
  apply bind_Ok_inv in Harr as (av & Hav%getitem_Ok_inv & ->%as_array_Ok).
  apply bindM_Ok_inv in Hrun as (sr & h1 & [-> Hsr]%liftM_inv & Hrun).
  apply bind_Ok_inv in Hsr as (sv & Hsv%getitem_Ok_inv & ->%as_int_Ok).
  apply bindM_Ok_inv in Hrun as (f & h1 & [-> Hf]%liftM_inv & Hrun).
  destruct (fe_call (pp_feature_extractor self) arr sr) as [|f' fs] eqn:Hfe;
    [discriminate|]. injection Hf as ->.
  apply bindM_Ok_inv in Hrun as (u & h1 & Hstore & Hrun).
  apply store_inv in Hstore as [[_ (r' & Hr' & ->)]|[[=] _]].
  unfold heap in *. assert (r' = r) as -> by congruence.
  apply bindM_Ok_inv in Hrun as (sentence_v & h1 & Hload & Hrun).
  apply load_inv in Hload as [-> Hload].
  destruct (Hload _ eq_refl) as (r2 & Hr2 & Hsentence). clear Hload.
  unfold heap in *. rewrite lookup_insert_eq in Hr2. injection Hr2 as <-.
  rewrite lookup_insert_ne in Hsentence by done.
  apply bindM_Ok_inv in Hrun as (sentence & h1 & [-> Hs]%liftM_inv & _).
  apply as_str_Ok in Hs as ->.
  by exists r, audio, arr, sr, f, fs, sentence.
Qed.

(** X9. A failing call leaves the store as it was, or with the feature
    vector written into the record and nothing else: it never leaves a
    [labels] field behind, and never touches another object. *)
Lemma Preprocessor_call_Raise_inv h (batch : nat) (e : error) h' :
  Preprocessor_call self batch h = (Raise e, h') →
  h' = h ∨
  ∃ r f, h !! batch = Some r ∧
         h' = <[batch := <["input_features" := VFeat f]> r]> h.
Proof.
  unfold Preprocessor_call, mbind, M_bind. intros Hrun.
  apply bindM_Raise_inv in Hrun as [[-> _]%load_inv|(? & h1 & Hl & Hrun)];
    [by left|]. apply load_inv in Hl as [-> _].
  do 3 (apply bindM_Raise_inv in Hrun
          as [[-> _]%liftM_inv|(? & h1 & [-> _]%liftM_inv & Hrun)];
        [by left|]).
  apply bindM_Raise_inv in Hrun
    as [[-> _]%liftM_inv|(f & h1 & [-> _]%liftM_inv & Hrun)]; [by left|].
  apply bindM_Raise_inv in Hrun as [Hstore|(u & h1 & Hstore & Hrun)].
  { apply store_inv in Hstore as [[[=] _]|[_ ->]]. by left. }
  apply store_inv in Hstore as [[_ (r & Hr & ->)]|[[=] _]].
  right. exists r, f. split; [done|].
  apply bindM_Raise_inv in Hrun as [[-> _]%load_inv|(? & h1 & Hl & Hrun)];
    [done|]. apply load_inv in Hl as [-> _].
  apply bindM_Raise_inv in Hrun
    as [[-> _]%liftM_inv|(? & h1 & [-> _]%liftM_inv & Hrun)]; [done|].
  apply bindM_Raise_inv in Hrun as [Hstore|(? & h1 & _ & [=])].
  by apply store_inv in Hstore as [[[=] _]|[_ ->]].
Qed.

End PreprocessorFurther.

(** X8. The preprocessor returns exactly when the record it is given has an
    audio dict with an array and an integer sampling rate, the feature
    extractor gives at least one feature vector for them, and the record has
    a sentence string. *)
Theorem Preprocessor_call_returns_iff {Array Feat Bundle : Type}
    (self : @Preprocessor Array Feat Bundle) (h : @heap Array Feat)
    (batch : nat) :
  (∃ b h', Preprocessor_call self batch h = (Ok b, h')) ↔
  ∃ r audio arr sr f fs sentence,
    h !! batch = Some r ∧
    r !! "audio" = Some (VDict audio) ∧
    audio !! "array" = Some (VArray arr) ∧
    audio !! "sampling_rate" = Some (VInt sr) ∧
    fe_call (pp_feature_extractor self) arr sr = f :: fs ∧
    r !! "sentence" = Some (VStr sentence).
Proof.
  split.
  - intros (b & h' & Hrun). by eapply Preprocessor_call_Ok_inv.
  - intros (r & audio & arr & sr & f & fs & sentence
            & Hr & Ha & Harr & Hsr & Hfe & Hs).
    eexists _, _. by eapply Preprocessor_call_eq.
Qed.

Lemma Preprocessor_call_Raise_inv_witness :
  (Preprocessor_call toy_preprocessor 0 example_heap_no_sentence).2
  = example_heap_no_sentence ∨
  ∃ r f, example_heap_no_sentence !! 0 = Some r ∧
         (Preprocessor_call toy_preprocessor 0 example_heap_no_sentence).2
         = <[0 := <["input_features" := VFeat f]> r]> example_heap_no_sentence.
Proof.
  apply (Preprocessor_call_Raise_inv toy_preprocessor example_heap_no_sentence
           0 (KeyError "sentence")).
  vm_compute. reflexivity.
Defined.

(** X10. A record without audio field fails with the lookup error of
    [audio] and is left untouched; a record with audio but without sentence
    fails with the lookup error of [sentence] after the feature vector has
    been written into it, and keeps it. *)
Theorem Preprocessor_call_missing_field {Array Feat Bundle : Type}
    (self : @Preprocessor Array Feat Bundle) (h : @heap Array Feat)
    (batch : nat) (r : gmap string (@value Array Feat)) :
  h !! batch = Some r →
  (r !! "audio" = None →
   Preprocessor_call self batch h = (Raise (KeyError "audio"), h)) ∧
  (∀ audio arr sr f fs,
     r !! "audio" = Some (VDict audio) →
     audio !! "array" = Some (VArray arr) →
     audio !! "sampling_rate" = Some (VInt sr) →
     fe_call (pp_feature_extractor self) arr sr = f :: fs →
     r !! "sentence" = None →
     Preprocessor_call self batch h
     = (Raise (KeyError "sentence"),
        <[batch := <["input_features" := VFeat f]> r]> h)).
Proof.
  intros Hh. split.
  - intros Haudio.
    unfold Preprocessor_call, mbind, M_bind, bindM, load.
    unfold heap in *. by rewrite Hh, (getitem_None _ _ Haudio).
  - intros audio arr sr f fs Haudio Harr Hsr Hfe Hsentence.
    unfold Preprocessor_call, mbind, M_bind, bindM, load, store, liftM, retM.
    unfold heap in *. rewrite Hh, (getitem_Some _ _ _ Haudio). simpl.
    rewrite (getitem_Some _ _ _ Harr), (getitem_Some _ _ _ Hsr). simpl.
    rewrite Hfe. simpl. rewrite Hh, lookup_insert_eq.
    by rewrite (getitem_None _ "sentence") by (by rewrite lookup_insert_ne).
Qed.

Lemma Preprocessor_call_missing_field_witness :
  Preprocessor_call toy_preprocessor 0 example_heap_no_sentence
  = (Raise (KeyError "sentence"),
     <[0 := <["input_features" := VFeat [1; 2]%Z]>
              (delete "sentence" example_record)]> example_heap_no_sentence).
Proof.
  refine (proj2 (Preprocessor_call_missing_field toy_preprocessor
                   example_heap_no_sentence 0
                   (delete "sentence" example_record) _)
            {[ "array" := VArray [1; 2]%Z; "sampling_rate" := VInt 16000 ]}
            [1; 2]%Z 16000%Z [1; 2]%Z [] _ _ _ _ _); reflexivity.
Defined.

(** X11. Preprocessing a record again changes nothing: the second call
    returns the same record and leaves the store as the first call left
    it (the fields written are overwritten by the same values). *)
Theorem Preprocessor_call_idempotent {Array Feat Bundle : Type}
    (self : @Preprocessor Array Feat Bundle) (h h' : @heap Array Feat)
    (batch b : nat) :
  Preprocessor_call self batch h = (Ok b, h') →
  Preprocessor_call self b h' = (Ok b, h').
Proof.
  intros Hrun.
  destruct (Preprocessor_call_Ok_inv self h batch b h' Hrun)
    as (r & audio & arr & sr & f & fs & sentence
        & Hr & Ha & Harr & Hsr & Hfe & Hs).
  rewrite (Preprocessor_call_eq self h batch r audio arr sr sentence f fs)
    in Hrun by done.
  injection Hrun as <- <-. unfold heap in *.
  rewrite (Preprocessor_call_eq self _ batch
             (<["labels" := VIds (tok_call (pp_tokenizer self) sentence)]>
                (<["input_features" := VFeat f]> r))
             audio arr sr sentence f fs); try done.
  - f_equal. unfold heap in *. rewrite insert_insert_eq. f_equal.
    apply map_eq. intros k.
    destruct (decide (k = "labels")) as [->|Hl].
    { by rewrite !lookup_insert_eq. }
    rewrite !(lookup_insert_ne _ "labels") by done.
    destruct (decide (k = "input_features")) as [->|Hi].
    { by rewrite !lookup_insert_eq. }
    rewrite !(lookup_insert_ne _ "input_features") by done.
    by rewrite !lookup_insert_ne.
  - unfold heap in *. by rewrite lookup_insert_eq.
  - by rewrite !lookup_insert_ne.
  - by rewrite !lookup_insert_ne.
Qed.

Lemma Preprocessor_call_idempotent_witness :
  Preprocessor_call toy_preprocessor 0
    (Preprocessor_call toy_preprocessor 0 example_heap).2
  = (Ok 0, (Preprocessor_call toy_preprocessor 0 example_heap).2).
Proof.
  apply (Preprocessor_call_idempotent toy_preprocessor example_heap _ 0 0).
  vm_compute. reflexivity.
Defined.

(** ** The collator: shape, failures, and what the pad token does not do *)





Lemma mapM_getitem_missing {V : Type} (key : string)
    (features : list (gmap string V)) :
  Exists (λ feature, feature !! key = None) features →
  mapM_result (λ feature, getitem feature key) features
  = Raise (KeyError key).
Proof.
  induction features as [|feature features IH]; intros Hex.
  { by apply Exists_nil in Hex. }
  simpl. destruct (feature !! key) as [v|] eqn:Hv.
  - rewrite (getitem_Some _ _ _ Hv), bind_Ok.
    apply Exists_cons in Hex as [Hex|Hex]; [congruence|].
    by rewrite IH.
  - by rewrite (getitem_None _ _ Hv).
Qed.

(** The tokenizer's padding followed by the masking is the padding with the
    ignore value: the pad token plays no part in it. *)
Lemma tokenizer_pad_masked {Array Feat : Type} {A : Type}
    (tok : WhisperTokenizer) (vals : list (@value Array Feat))
    (k : list (list Z) → result A) :
  (enc ← tokenizer_pad tok vals;
   k (masked_fill (input_ids enc) (tensor_ne (attention_mask enc) 1)
        ignore_index))
  = (seqs ← mapM_result as_ids vals; k (padded_labels seqs)).
Proof.
  unfold tokenizer_pad. destruct (mapM_result as_ids vals) as [seqs|e]; [|done].
  rewrite !bind_Ok. cbn [input_ids attention_mask].
  f_equal. apply masked_fill_pad.
Qed.



(** X15. How the collator fails: on an empty batch with an index error; when
    some example has no [input_features] field with the lookup error of that
    field, whatever the labels are; when every example has a feature vector
    and some example has no [labels] field with the lookup error of
    [labels]. *)
Theorem DataCollator_call_errors {Array Feat Bundle : Type}
    (self : @DataCollatorSpeechSeq2SeqWithPadding Array Feat Bundle)
    (features : list (gmap string (@value Array Feat))) (feats : list Feat) :
  (features = [] → DataCollator_call self features = Raise IndexError) ∧
  (Exists (λ feature, feature !! "input_features" = None) features →
   DataCollator_call self features = Raise (KeyError "input_features")) ∧
  (features ≠ [] →
   Forall2 (λ feature f, feature !! "input_features" = Some (VFeat f))
     features feats →
   Exists (λ feature, feature !! "labels" = None) features →
   DataCollator_call self features = Raise (KeyError "labels")).
Proof.
  split; [by intros ->|]. unfold DataCollator_call. split.
  - intros Hex. by rewrite (mapM_getitem_missing _ _ Hex).
  - intros Hne Hfeats Hex.
    assert (mapM_result (λ feature, getitem feature "input_features") features
            = Ok (VFeat <$> feats)) as ->.
    { apply mapM_result_Ok, Forall2_fmap_r.
      eapply Forall2_impl; [exact Hfeats|].
      intros feature f. apply getitem_Some. }
    rewrite bind_Ok. unfold feature_extractor_pad.
    rewrite (mapM_result_fmap as_feat VFeat id), list_fmap_id by done.
    destruct feats as [|f feats].
    { by apply Forall2_nil_inv_r in Hfeats. }
    csimpl. by rewrite (mapM_getitem_missing _ _ Hex).
Qed.

Lemma DataCollator_call_errors_witness :
  DataCollator_call toy_collator [] = Raise IndexError ∧
  DataCollator_call toy_collator
    [example_feature [1]%Z; {[ "labels" := VIds [1]%Z ]}]
  = Raise (KeyError "input_features") ∧
  DataCollator_call toy_collator
    [example_feature [1]%Z; {[ "input_features" := VFeat [1]%Z ]}]
  = Raise (KeyError "labels").
Proof.
  split; [|split].
  - refine (proj1 (DataCollator_call_errors toy_collator [] []) _).
    reflexivity.
  - refine (proj1 (proj2 (DataCollator_call_errors toy_collator
             [example_feature [1]%Z; {[ "labels" := VIds [1]%Z ]}] [])) _).
    apply Exists_cons_tl, Exists_cons_hd. reflexivity.
  - refine (proj2 (proj2 (DataCollator_call_errors toy_collator
             [example_feature [1]%Z; {[ "input_features" := VFeat [1]%Z ]}]
             [[1]; [1]]%Z)) _ _ _).
    + discriminate.
    + repeat constructor.
    + apply Exists_cons_tl, Exists_cons_hd. reflexivity.
Defined.



(** X17. The collator uses the tokenizer only for its beginning-of-sequence
    id: two collators with the same feature extractor and the same id give
    the same outcome on every batch, whatever their pad tokens are.  The
    positions to ignore come from the attention mask, so a token of a
    sequence that equals the pad token stays a label. *)
Theorem DataCollator_call_pad_token_irrelevant {Array Feat Bundle : Type}
    (self self' : @DataCollatorSpeechSeq2SeqWithPadding Array Feat Bundle)
    (features : list (gmap string (@value Array Feat))) :
  dc_feature_extractor self = dc_feature_extractor self' →
  bos_token_id (dc_tokenizer self) = bos_token_id (dc_tokenizer self') →
  DataCollator_call self features = DataCollator_call self' features.
Proof.
  intros Hfe Hbos. unfold DataCollator_call. rewrite Hfe, Hbos.
  destruct (mapM_result (λ feature, getitem feature "input_features") features)
    as [fvals|e]; [|done]. rewrite !bind_Ok.
  destruct (feature_extractor_pad _ fvals) as [b|e]; [|done]. rewrite !bind_Ok.
  destruct (mapM_result (λ feature, getitem feature "labels") features)
    as [lvals|e]; [|done]. rewrite !bind_Ok.
  unfold tokenizer_pad.
  destruct (mapM_result as_ids lvals) as [seqs|e]; [|done]. rewrite !bind_Ok.
  cbn [input_ids attention_mask].
  change (max_list (length <$> seqs)) with (batch_width seqs).
  by rewrite !masked_fill_pad.
Qed.

Lemma DataCollator_call_pad_token_irrelevant_witness :
  DataCollator_call toy_collator
    [example_feature [50258; 1; 50257]%Z; example_feature [50258; 1]%Z]
  = DataCollator_call
      {| dc_tokenizer := {| tok_call := tok_call toy_tokenizer;
                            bos_token_id := 50258; pad_token_id := 0 |};
         dc_feature_extractor := toy_feature_extractor |}
      [example_feature [50258; 1; 50257]%Z; example_feature [50258; 1]%Z].
Proof.
  apply DataCollator_call_pad_token_irrelevant; reflexivity.
Defined.



(** ** The preprocessor and the collator together *)

(** X12. Records that the preprocessor returned are a well-formed batch for
    the collator: on a non-empty list of them the collator never fails with
    a lookup or type error; it returns whenever some transcript was
    tokenized to at least one token, and the label sequences it pads are the
    tokenizer's outputs. *)
Theorem Preprocessor_then_collate {Array Feat Bundle : Type}
    (pp : @Preprocessor Array Feat Bundle)
    (dc : @DataCollatorSpeechSeq2SeqWithPadding Array Feat Bundle)
    (features : list (gmap string (@value Array Feat))) :
  features ≠ [] →
  Forall (λ feature, ∃ h batch b h',
            Preprocessor_call pp batch h = (Ok b, h') ∧
            h' !! b = Some feature) features →
  ∃ feats seqs,
    holds features feats seqs ∧
    Forall (λ s, ∃ sentence, s = tok_call (pp_tokenizer pp) sentence) seqs ∧
    (0 < batch_width seqs → ∃ out, DataCollator_call dc features = Ok out) ∧
    (batch_width seqs = 0 → DataCollator_call dc features = Raise IndexError).
Proof.
  intros Hne Hall.
  assert (∃ feats seqs,
            holds features feats seqs ∧
            Forall (λ s, ∃ sentence, s = tok_call (pp_tokenizer pp) sentence)
              seqs) as (feats & seqs & Hholds & Htok).
  { clear Hne. induction Hall as [|feature features Hf _ IH].
    { exists [], []. by repeat split. }
    destruct IH as (feats & seqs & [Hfeats Hseqs] & Htok).
    destruct Hf as (h & batch & b & h' & Hrun & Hfeature).
    destruct (Preprocessor_call_Ok_inv pp h batch b h' Hrun)
      as (r & audio & arr & sr & f & fs & sentence
          & Hr & Ha & Harr & Hsr & Hfe & Hs).
    rewrite (Preprocessor_call_eq pp h batch r audio arr sr sentence f fs)
      in Hrun by done.
    injection Hrun as <- <-. unfold heap in *.
    rewrite lookup_insert_eq in Hfeature. injection Hfeature as <-.
    exists (f :: feats), (tok_call (pp_tokenizer pp) sentence :: seqs).
    split; [split|].
    - constructor; [|done].
      by rewrite lookup_insert_ne, lookup_insert_eq.
    - constructor; [|done]. apply lookup_insert_eq.
    - constructor; [by eexists|done]. }
  exists feats, seqs. split; [done|]. split; [done|].
  rewrite (DataCollator_call_holds dc features feats seqs Hne Hholds). split.
  - intros Hw. rewrite (column0_padded seqs Hw), bind_Ok. eauto.
  - intros Hw. rewrite column0_no_column; [done| |done].
    by eapply holds_seqs_nonempty.
Qed.

Lemma Preprocessor_then_collate_witness :
  ∃ feats seqs,
    holds [<["labels" := VIds [50258; 2; 50257]%Z]>
             (<["input_features" := VFeat [1; 2]%Z]> example_record)]
      feats seqs ∧
    Forall (λ s, ∃ sentence, s = tok_call toy_tokenizer sentence) seqs ∧
    (0 < batch_width seqs →
     ∃ out,
       DataCollator_call toy_collator
         [<["labels" := VIds [50258; 2; 50257]%Z]>
            (<["input_features" := VFeat [1; 2]%Z]> example_record)]
       = Ok out) ∧
    (batch_width seqs = 0 →
     DataCollator_call toy_collator
       [<["labels" := VIds [50258; 2; 50257]%Z]>
          (<["input_features" := VFeat [1; 2]%Z]> example_record)]
     = Raise IndexError).
Proof.
  apply (Preprocessor_then_collate toy_preprocessor toy_collator).
  - discriminate.
  - repeat constructor.
    exists example_heap, 0, 0. eexists. split; vm_compute; reflexivity.
Defined.

(** ** [skrink_splits] with nothing to shrink *)

(** X19. When no named split is larger than its target, in particular with an
    empty mapping, the output is the growth split alone, with its original
    rows: every other split of the dataset is dropped. *)
Theorem skrink_splits_nothing_shrunk {Ex : Type} (G : Generator)
    `{!GeneratorLaws G} (ds : gmap string (list Ex))
    (split_sizes : list (string * Z)) (grow_split : string) (seed : Z)
    (g : list Ex) :
  (0 ≤ seed)%Z →
  Forall (λ it, is_Some (ds !! it.1) ∧ (0 ≤ it.2)%Z) split_sizes →
  Forall (λ it, ¬ is_shrunk ds it) split_sizes →
  ds !! grow_split = Some g →
  skrink_splits G ds split_sizes grow_split seed = Ok {[ grow_split := g ]}.
Proof.
  intros Hseed Hitems Hnone Hg.
  destruct (skrink_splits_spec G ds split_sizes grow_split seed g)
    as (draws & Hdraws & Hrun); [done..|].
  rewrite (filter_none _ _ Hnone) in Hdraws.
  apply Forall2_nil_inv_l in Hdraws as ->.
  rewrite Hrun. csimpl. by rewrite app_nil_r.
Qed.

Lemma skrink_splits_nothing_shrunk_witness :
  skrink_splits descending_rng example_ds [] "train" 0
  = Ok {[ "train" := [0; 1; 2] ]}.
Proof.
  apply (skrink_splits_nothing_shrunk descending_rng example_ds [] "train" 0%Z).
  - lia.
  - constructor.
  - constructor.
  - reflexivity.
Defined.
